(** * glearn: the CC-CEDICT dictionary and the longest-match segmenter

    A shallow embedding of the class [Dictionary] of the dictionary
    module ([parseLine], [initialize], [getInstance], [get],
    [findLongestMatch]) and of the segmentation loop of
    [InteractiveText] (InteractiveMarkdownReader.tsx).

    JavaScript strings are sequences of UTF-16 code units; [length],
    [substring], indexing and the regular expression (which has no [u]
    flag) all count code units.  A string is therefore a [list N] of
    code units, and the dictionary's [Map] is a [gmap] keyed by them. *)

From stdpp Require Import gmap strings list fin_maps.
From Stdlib Require Import ZArith Lia Ascii.

Open Scope Z_scope.
Open Scope nat_scope.

(** ** Strings *)

Definition code_unit := N.
Abbreviation jsstring := (list code_unit).

(** An ASCII literal as a JavaScript string. *)
Fixpoint lit (s : string) : jsstring :=
  match s with
  | EmptyString => []
  | String a s' => N_of_ascii a :: lit s'
  end.

Definition HASH : code_unit := 0x23%N.
Definition SLASH : code_unit := 0x2F%N.
Definition LBRACKET : code_unit := 0x5B%N.
Definition RBRACKET : code_unit := 0x5D%N.
Definition NEWLINE : code_unit := 0x0A%N.

(** ECMAScript LineTerminator: LF, CR, LS, PS. *)
Definition is_line_terminator (c : code_unit) : bool :=
  (c =? 0x0A)%N || (c =? 0x0D)%N || (c =? 0x2028)%N || (c =? 0x2029)%N.

(** ECMAScript WhiteSpace: TAB, VT, FF, ZWNBSP and the Unicode category Zs. *)
Definition is_white_space (c : code_unit) : bool :=
  (c =? 0x09)%N || (c =? 0x0B)%N || (c =? 0x0C)%N || (c =? 0xFEFF)%N
  || (c =? 0x20)%N || (c =? 0xA0)%N || (c =? 0x1680)%N
  || ((0x2000 <=? c)%N && (c <=? 0x200A)%N)
  || (c =? 0x202F)%N || (c =? 0x205F)%N || (c =? 0x3000)%N.

(** The class [\s], which is also what [String.prototype.trim] strips. *)
Definition is_space (c : code_unit) : bool :=
  is_white_space c || is_line_terminator c.

(** The class [.] of a pattern without the [s] flag. *)
Definition is_dot (c : code_unit) : bool := negb (is_line_terminator c).

Definition is_unit (x : code_unit) (c : code_unit) : bool := (c =? x)%N.

Fixpoint trimStart (s : jsstring) : jsstring :=
  match s with
  | c :: s' => if is_space c then trimStart s' else s
  | [] => []
  end.

Definition trimEnd (s : jsstring) : jsstring :=
  reverse (trimStart (reverse s)).

(** [String.prototype.trim]. *)
Definition trim (s : jsstring) : jsstring := trimEnd (trimStart s).

(** [String.prototype.split] with a one-unit separator: n separators give
    n + 1 pieces, the empty string gives one empty piece. *)
Fixpoint split (sep : code_unit) (s : jsstring) : list jsstring :=
  match s with
  | [] => [[]]
  | c :: s' =>
      if (c =? sep)%N then [] :: split sep s'
      else match split sep s' with
           | piece :: pieces => (c :: piece) :: pieces
           | [] => [[c]]
           end
  end.

(** [String.prototype.substring]: both indices are clamped to
    [0, length] and swapped when out of order. *)
Definition substring (s : jsstring) (from to : Z) : jsstring :=
  let len := Z.of_nat (length s) in
  let from' := Z.min (Z.max from 0) len in
  let to' := Z.min (Z.max to 0) len in
  let lo := Z.min from' to' in
  let hi := Z.max from' to' in
  take (Z.to_nat (hi - lo)) (drop (Z.to_nat lo) s).

(** ** The regular expression of [parseLine]

    The pattern [/^(?!#)(.+?)\s(.+?)\s\[(.+?)\]\s\/(.+?)\/$/] is a
    sequence of atoms: assertions, single-unit classes and capturing
    groups holding a lazy [+] over a class. *)

Inductive atom :=
  | ABol                                   (* ^ *)
  | AEol                                   (* $ *)
  | ANotAhead (cls : code_unit → bool)     (* (?!c) *)
  | AChar (cls : code_unit → bool)         (* one unit of the class *)
  | AGroup (cls : code_unit → bool).       (* (c+?) *)

Abbreviation captures := (list jsstring).

(** The lazy quantifier: take one unit, try the rest of the pattern [k];
    when that fails, backtrack here and take one more. *)
Fixpoint lazy_plus (cls : code_unit → bool)
    (k : nat → jsstring → option captures)
    (acc : jsstring) (idx : nat) (s : jsstring) : option captures :=
  match s with
  | [] => None
  | c :: s' =>
      if cls c then
        match k (S idx) s' with
        | Some caps => Some ((acc ++ [c]) :: caps)
        | None => lazy_plus cls k (acc ++ [c]) (S idx) s'
        end
      else None
  end.

(** Backtracking match of the atoms [r] against the input [s], which
    begins at index [idx] of the subject string. *)
Fixpoint run (r : list atom) (idx : nat) (s : jsstring) : option captures :=
  match r with
  | [] => Some []
  | ABol :: r' => if decide (idx = 0) then run r' idx s else None
  | AEol :: r' => match s with [] => run r' idx s | _ :: _ => None end
  | ANotAhead cls :: r' =>
      match s with
      | c :: _ => if cls c then None else run r' idx s
      | [] => run r' idx s
      end
  | AChar cls :: r' =>
      match s with
      | c :: s' => if cls c then run r' (S idx) s' else None
      | [] => None
      end
  | AGroup cls :: r' => lazy_plus cls (run r') [] idx s
  end.

(** [RegExp.prototype.exec] without the [g] or [y] flag: the first start
    index, from 0 upwards, at which the pattern matches. *)
Fixpoint exec_from (r : list atom) (idx : nat) (s : jsstring) : option captures :=
  match run r idx s with
  | Some caps => Some caps
  | None =>
      match s with
      | [] => None
      | _ :: s' => exec_from r (S idx) s'
      end
  end.

(** [String.prototype.match] with a non-global pattern. *)
Definition str_match (r : list atom) (s : jsstring) : option captures :=
  exec_from r 0 s.

Definition regex : list atom :=
  [ ABol; ANotAhead (is_unit HASH);
    AGroup is_dot; AChar is_space;
    AGroup is_dot; AChar is_space;
    AChar (is_unit LBRACKET); AGroup is_dot; AChar (is_unit RBRACKET);
    AChar is_space;
    AChar (is_unit SLASH); AGroup is_dot; AChar (is_unit SLASH); AEol ].

(** ** Dictionary entries and [parseLine] *)

Record DictionaryEntry := {
  traditional : jsstring;
  simplified : jsstring;
  pinyin : jsstring;
  definitions : list jsstring
}.

Definition non_empty (s : jsstring) : bool :=
  match s with [] => false | _ :: _ => true end.

Definition parseLine (line : jsstring) : option DictionaryEntry :=
  match str_match regex (trim line) with
  | Some [t; s; p; definitionsStr] =>
      Some {| traditional := t;
              simplified := s;
              pinyin := p;
              definitions := List.filter non_empty (split SLASH definitionsStr) |}
  | _ => None
  end.

(** ** Console output

    [console.error] is the only effect of the query methods: a method
    returns its result together with the messages it wrote. *)

Inductive error :=
  | FetchError                 (* the rejection of fetch(dataUrl) *)
  | FailedToFetchDictionary    (* new Error(`Failed to fetch dictionary data from ...`) *)
  | BodyError.                 (* the rejection of response.text() *)

Inductive console_msg :=
  | InitializationFailed (e : error)
  | AccessBeforeInitialized.

Definition Console (A : Type) : Type := A * list console_msg.
Definition ret {A} (a : A) : Console A := (a, []).
Definition console_error {A} (msg : console_msg) (a : A) : Console A := (a, [msg]).
Definition result {A} (c : Console A) : A := fst c.
Definition console {A} (c : Console A) : list console_msg := snd c.

(** ** The Dictionary class *)

Record Dictionary := {
  entries : gmap jsstring DictionaryEntry;
  isInitialized : bool;
  maxKeyLength : nat
}.

(** The field initialisers of the class, run by [new Dictionary()]. *)
Definition new_Dictionary : Dictionary :=
  {| entries := ∅; isInitialized := false; maxKeyLength := 0 |}.

(** The body of the [for (const line of lines)] loop of [initialize]. *)
Definition load_line (m : gmap jsstring DictionaryEntry) (line : jsstring)
    : gmap jsstring DictionaryEntry :=
  match parseLine line with
  | Some entry => <[simplified entry := entry]> (<[traditional entry := entry]> m)
  | None => m
  end.

Definition load_lines (lines : list jsstring) (m : gmap jsstring DictionaryEntry)
    : gmap jsstring DictionaryEntry :=
  foldl load_line m lines.

(** [this.entries.keys()].  A [Map] iterates in insertion order and a
    [gmap] in its own; the loop below takes a maximum, which no order
    changes. *)
Definition keys (m : gmap jsstring DictionaryEntry) : list jsstring :=
  (map_to_list m).*1.

(** The [for (const key of this.entries.keys())] loop of [initialize]. *)
Definition longest_key (m : gmap jsstring DictionaryEntry) : nat :=
  foldl (λ maxLen key, if maxLen <? length key then length key else maxLen)
        0 (keys m).

(** What the two awaited promises of [initialize] deliver. *)
Inductive fetch_outcome :=
  | FetchRejected
  | ResponseNotOk
  | TextRejected
  | ResponseText (rawData : jsstring).

(** [initialize], given the outcome of [fetch(dataUrl)] and
    [response.text()]: the updated object and the error re-thrown by the
    [catch] block, if any.  Every throwing statement precedes the first
    assignment to a field, so a failed run leaves the object as it was.
    Nothing is awaited after [response.text()]: the lines are loaded,
    [isInitialized] is set and [maxKeyLength] is assigned in one turn. *)
Definition initialize (this : Dictionary) (o : fetch_outcome)
    : Console (Dictionary * option error) :=
  match o with
  | FetchRejected =>
      console_error (InitializationFailed FetchError) (this, Some FetchError)
  | ResponseNotOk =>
      console_error (InitializationFailed FailedToFetchDictionary)
                    (this, Some FailedToFetchDictionary)
  | TextRejected =>
      console_error (InitializationFailed BodyError) (this, Some BodyError)
  | ResponseText rawData =>
      let lines := split NEWLINE rawData in
      let entries' := load_lines lines (entries this) in
      ret ({| entries := entries';
              isInitialized := true;
              maxKeyLength := longest_key entries' |}, None)
  end.

(** The index built from a raw source text: a fresh instance after a
    successful [initialize]. *)
Definition build (rawData : jsstring) : Dictionary :=
  fst (result (initialize new_Dictionary (ResponseText rawData))).

Definition get (this : Dictionary) (character : jsstring)
    : Console (option DictionaryEntry) :=
  if negb (isInitialized this) then
    console_error AccessBeforeInitialized None
  else ret (entries this !! character).

(** The [for (let length = this.maxKeyLength; length > 0; length--)] loop. *)
Fixpoint longest_from (m : gmap jsstring DictionaryEntry) (text : jsstring)
    (startIndex : Z) (len : nat) : option jsstring :=
  match len with
  | O => None
  | S len' =>
      if bool_decide (startIndex + Z.of_nat len ≤ Z.of_nat (length text))%Z then
        let sub := substring text startIndex (startIndex + Z.of_nat len) in
        if bool_decide (is_Some (m !! sub)) then Some sub
        else longest_from m text startIndex len'
      else longest_from m text startIndex len'
  end.

Definition findLongestMatch (this : Dictionary) (text : jsstring) (startIndex : Z)
    : Console (option jsstring) :=
  if negb (isInitialized this) then ret None
  else ret (longest_from (entries this) text startIndex (maxKeyLength this)).

(** ** The segmentation loop of [InteractiveText] *)

Record segment := {
  content : jsstring;
  isMatch : bool;
  startIndex : nat
}.

(** [text[i]] for an index inside the string, which the loop guard
    [i < text.length] ensures. *)
Definition unit_at (text : jsstring) (i : nat) : jsstring :=
  match text !! i with Some c => [c] | None => [] end.

(** The [while (i < text.length)] loop; [if (match)] takes the first
    branch for a non-empty string only.  Each iteration uses one unit of
    fuel. *)
Fixpoint segment_loop (fuel : nat) (dictionary : Dictionary) (text : jsstring)
    (i : nat) (segments : list segment) : option (list segment) :=
  if decide (i < length text) then
    match fuel with
    | O => None
    | S fuel' =>
        match result (findLongestMatch dictionary text (Z.of_nat i)) with
        | Some (c :: m) =>
            segment_loop fuel' dictionary text (i + length (c :: m))
              (segments ++ [{| content := c :: m; isMatch := true; startIndex := i |}])
        | _ =>
            segment_loop fuel' dictionary text (i + 1)
              (segments ++ [{| content := unit_at text i; isMatch := false;
                               startIndex := i |}])
        end
    end
  else Some segments.

Definition InteractiveText_segments (dictionary : Dictionary) (text : jsstring)
    : option (list segment) :=
  segment_loop (length text) dictionary text 0 [].

(** ** [getInstance] and the event loop

    [getInstance] is an async function over the static field
    [Dictionary.instance].  A turn of the event loop runs to completion,
    so the process moves by two kinds of turns: a caller invokes
    [getInstance], which runs up to its [await] or to its [return]; or
    the awaited load settles and the suspended call runs to its end.  A
    caller whose promise is settled is recorded with what it received:
    the state of the shared instance at that moment, or the error. *)

Inductive settlement :=
  | Resolved (d : Dictionary)
  | Rejected (e : error).

Record process := {
  instance : option Dictionary;          (* Dictionary.instance *)
  awaiting : option nat;                 (* the caller suspended in initialize *)
  fetches : nat;                         (* calls of fetch(dataUrl) so far *)
  settled : list (nat * settlement);
  console_out : list console_msg
}.

Definition start : process :=
  {| instance := None; awaiting := None; fetches := 0;
     settled := []; console_out := [] |}.

Inductive event :=
  | Call (caller : nat)
  | Settle (o : fetch_outcome).

Definition getInstance_call (caller : nat) (p : process) : process :=
  match instance p with
  | None =>
      {| instance := Some new_Dictionary;
         awaiting := Some caller;
         fetches := S (fetches p);
         settled := settled p;
         console_out := console_out p |}
  | Some d =>
      {| instance := instance p;
         awaiting := awaiting p;
         fetches := fetches p;
         settled := settled p ++ [(caller, Resolved d)];
         console_out := console_out p |}
  end.

Definition getInstance_resume (o : fetch_outcome) (p : process) : process :=
  match awaiting p, instance p with
  | Some caller, Some d =>
      let r := initialize d o in
      {| instance := Some (fst (result r));
         awaiting := None;
         fetches := fetches p;
         settled := settled p ++
           [(caller, match snd (result r) with
                     | Some e => Rejected e
                     | None => Resolved (fst (result r))
                     end)];
         console_out := console_out p ++ console r |}
  | _, _ => p
  end.

Definition step (p : process) (ev : event) : process :=
  match ev with
  | Call caller => getInstance_call caller p
  | Settle o => getInstance_resume o p
  end.

Definition run_events (evs : list event) (p : process) : process :=
  foldl step p evs.

(** ** Unicode characters

    A character outside the Basic Multilingual Plane is a surrogate pair
    of two code units. *)

Definition is_high_surrogate (c : code_unit) : bool :=
  (0xD800 <=? c)%N && (c <=? 0xDBFF)%N.
Definition is_low_surrogate (c : code_unit) : bool :=
  (0xDC00 <=? c)%N && (c <=? 0xDFFF)%N.

(** The characters (code points) of a string, each as its code units. *)
Fixpoint characters (s : jsstring) : list jsstring :=
  match s with
  | [] => []
  | h :: t =>
      match t with
      | l :: rest =>
          if is_high_surrogate h && is_low_surrogate l
          then [h; l] :: characters rest
          else [h] :: characters t
      | [] => [[h]]
      end
  end.

Definition char_length (s : jsstring) : nat := length (characters s).

(** ** The lines the pattern accepts

    [entry_shape] is the language of the pattern, not the shape of the
    specification ([spec_entry_shape] below): four fields, each a
    non-empty run of units other than line terminators; one white-space
    unit stands for each blank of
    [<traditional> <simplified> [<pronunciation>] /<def1>/.../<defN>/],
    the pronunciation is bracketed and the gloss field [g] is bounded by
    two slashes.  A field may hold white space, brackets and slashes. *)

Definition field (x : jsstring) : Prop :=
  x ≠ [] ∧ Forall (λ c, is_dot c = true) x.

Definition entry_fields (line t s p g : jsstring) : Prop :=
  ∃ w1 w2 w3,
    line = t ++ w1 :: s ++ w2 :: LBRACKET :: p ++ RBRACKET :: w3 :: SLASH :: g ++ [SLASH]
    ∧ is_space w1 = true ∧ is_space w2 = true ∧ is_space w3 = true
    ∧ field t ∧ field s ∧ field p ∧ field g.

Definition entry_shape (line : jsstring) : Prop :=
  ∃ t s p g, entry_fields line t s p g.

Definition furniture_line : jsstring :=
  [0x50A2; 0x4FF1; 0x20; 0x5BB6; 0x5177; 0x20]%N ++ lit "[jia1 ju4] /furniture/".

Definition furniture_text : jsstring :=
  [0x4ED6; 0x8CB7; 0x4E86; 0x5BB6; 0x5177]%N.

(** ** Statements about the index *)

(** [k] is one of the two headwords of [e]. *)
Definition headword (k : jsstring) (e : DictionaryEntry) : Prop :=
  k = traditional e ∨ k = simplified e.

(** [measure] of the longest key is [n]; [n] is 0 for the empty map. *)
Definition is_max_key_length (measure : jsstring → nat)
    (m : gmap jsstring DictionaryEntry) (n : nat) : Prop :=
  (∀ k, k ∈ dom m → measure k ≤ n)
  ∧ (m ≠ ∅ → ∃ k, k ∈ dom m ∧ measure k = n)
  ∧ (m = ∅ → n = 0).

(** A source whose only headword is U+20000, one character of two code
    units. *)
Definition astral_source : jsstring :=
  [0xD840; 0xDC00; 0x20; 0xD840; 0xDC00; 0x20]%N ++ lit "[x] /y/".

(** ** Statements about the queries *)

(** The key [key] of the map occurs in [text] at code-unit position [i],
    within bounds. *)
Definition matches_at (m : gmap jsstring DictionaryEntry) (text : jsstring)
    (i : Z) (key : jsstring) : Prop :=
  key ∈ dom m
  ∧ (i + Z.of_nat (length key) ≤ Z.of_nat (length text))%Z
  ∧ key = substring text i (i + Z.of_nat (length key)).

(** The key [key] of the map, [L] characters long, is the [L] characters
    of [text] that begin at character position [i]. *)
Definition matches_at_character (m : gmap jsstring DictionaryEntry)
    (text : jsstring) (i : nat) (key : jsstring) : Prop :=
  key ∈ dom m
  ∧ i + char_length key ≤ char_length text
  ∧ characters key = take (char_length key) (drop i (characters text)).

(** Positions and lengths read as character counts: a match is returned
    exactly when a key matches at the character position. *)
Definition character_indexed (d : Dictionary) (text : jsstring) (i : nat) : Prop :=
  is_Some (result (findLongestMatch d text (Z.of_nat i)))
  ↔ ∃ key, matches_at_character (entries d) text i key.

(** U+20000 followed by [a]: two characters, three code units. *)
Definition astral_text : jsstring := [0xD840; 0xDC00; 0x61]%N.

(** ** Statements about the segmentation *)

(** The segments tile the text from position [from] to its end: each one
    starts where the previous one ended, is non-empty, and holds the
    units of the text at its positions. *)
Fixpoint tiles (text : jsstring) (from : nat) (segs : list segment) : Prop :=
  match segs with
  | [] => from = length text
  | sg :: rest =>
      startIndex sg = from
      ∧ content sg ≠ []
      ∧ from + length (content sg) ≤ length text
      ∧ content sg = take (length (content sg)) (drop from text)
      ∧ tiles text (from + length (content sg)) rest
  end.

(** A matched segment is what [findLongestMatch] returned at its start;
    an unmatched one is the single unit there. *)
Definition segment_ok (d : Dictionary) (text : jsstring) (sg : segment) : Prop :=
  if isMatch sg then
    result (findLongestMatch d text (Z.of_nat (startIndex sg))) = Some (content sg)
  else
    content sg = unit_at text (startIndex sg) ∧ length (content sg) = 1.

(** ** Statements about [getInstance] *)

(** The error with which a load fails, if it does. *)
Definition load_failure (o : fetch_outcome) : option error :=
  match o with
  | FetchRejected => Some FetchError
  | ResponseNotOk => Some FailedToFetchDictionary
  | TextRejected => Some BodyError
  | ResponseText _ => None
  end.

(** What a call of [getInstance] receives once the instance exists and
    nothing is awaited. *)
Definition late_call (d : Dictionary) (ev : event) : option (nat * settlement) :=
  match ev with
  | Call caller => Some (caller, Resolved d)
  | Settle _ => None
  end.

(** ** Statements about entry lines *)

(** No unit of [x] is in the class. *)
Definition free_of (cls : code_unit → bool) (x : jsstring) : Prop :=
  Forall (λ c, cls c = false) x.

Definition SPACE : code_unit := 0x20%N.

(** The pieces with the separator between them, as [Array.prototype.join]
    gives them. *)
Fixpoint join (sep : code_unit) (pieces : list jsstring) : jsstring :=
  match pieces with
  | [] => []
  | [piece] => piece
  | piece :: rest => piece ++ sep :: join sep rest
  end.

(** The CC-CEDICT line of an entry:
    [traditional simplified [pinyin] /def1/.../defN/]. *)
Definition entry_line (e : DictionaryEntry) : jsstring :=
  traditional e ++ SPACE :: simplified e ++ SPACE :: LBRACKET :: pinyin e
    ++ RBRACKET :: SPACE :: SLASH :: join SLASH (definitions e) ++ [SLASH].

(** An entry whose line reads back unambiguously: headwords without
    white space, the traditional one not beginning with [#], a
    pronunciation without [']'], at least one gloss, and glosses that are
    non-empty and without [/]; no field holds a line terminator. *)
Definition clean_entry (e : DictionaryEntry) : Prop :=
  field (traditional e) ∧ free_of is_space (traditional e)
  ∧ head (traditional e) ≠ Some HASH
  ∧ field (simplified e) ∧ free_of is_space (simplified e)
  ∧ field (pinyin e) ∧ free_of (is_unit RBRACKET) (pinyin e)
  ∧ definitions e ≠ []
  ∧ Forall (λ def, field def ∧ free_of (is_unit SLASH) def) (definitions e).

(** ** The hover and look-up handlers of [InteractiveMarkdownReader]

    The component keeps [hoveredInfo] and [selectedWordEntry] in React
    state; a handler is the function from the state it reads to the
    value it sets. *)

Module hoveredInfo.
Record t := {
  word : jsstring;
  startIndex : nat;
  pIndex : Z
}.
End hoveredInfo.

(** [handleMouseEnter]: the value passed to [setHoveredInfo].  Its
    [console.log] line is left out; the console of this development
    holds what [console.error] writes. *)
Definition handleMouseEnter (word : jsstring) (startIndex : nat) (pIndex : Z)
    : option hoveredInfo.t :=
  Some {| hoveredInfo.word := word; hoveredInfo.startIndex := startIndex;
          hoveredInfo.pIndex := pIndex |}.

(** [handleMouseLeave]. *)
Definition handleMouseLeave : option hoveredInfo.t := None.

(** [handleKeyDown]: the selected entry after a key press;
    [result || null] is the entry, or null for undefined. *)
Definition handleKeyDown (key : jsstring) (hovered : option hoveredInfo.t)
    (dictionary : option Dictionary) (selectedWordEntry : option DictionaryEntry)
    : Console (option DictionaryEntry) :=
  if decide (key = lit "d") then
    match hovered, dictionary with
    | Some h, Some d => get d (hoveredInfo.word h)
    | _, _ => ret selectedWordEntry
    end
  else ret selectedWordEntry.

(** The [isHighlighted] test of a matched segment. *)
Definition isHighlighted (hovered : option hoveredInfo.t) (localPIndex : Z)
    (sg : segment) : bool :=
  match hovered with
  | Some h =>
      bool_decide (hoveredInfo.pIndex h = localPIndex)
      && bool_decide (hoveredInfo.startIndex h = startIndex sg)
      && bool_decide (hoveredInfo.word h = content sg)
  | None => false
  end.

(** ** Statements about segments *)

(** The unmatched segment of the single unit [c] at position [i]. *)
Definition unit_segment (i : nat) (c : code_unit) : segment :=
  {| content := [c]; isMatch := false; startIndex := i |}.

(** The segment [sg] is the greedy choice at its start: the longest key
    occurring there when it is matched, and no key occurs there when it
    is not. *)
Definition greedy_segment (d : Dictionary) (text : jsstring) (sg : segment) : Prop :=
  if isMatch sg then
    matches_at (entries d) text (Z.of_nat (startIndex sg)) (content sg)
    ∧ ∀ key, matches_at (entries d) text (Z.of_nat (startIndex sg)) key →
             length key ≤ length (content sg)
  else
    ∀ key, ¬ matches_at (entries d) text (Z.of_nat (startIndex sg)) key.

(** What the loop recorded for a segment agrees with the search at its
    start index. *)
Definition recorded (d : Dictionary) (text : jsstring) (sg : segment) : Prop :=
  match result (findLongestMatch d text (Z.of_nat (startIndex sg))) with
  | Some (c :: m) => isMatch sg = true ∧ content sg = c :: m
  | _ => isMatch sg = false
  end.

(** ** The entry shape of the specification

    [<traditional> <simplified> [<pronunciation>] /<def1>/.../<defN>/]
    where the two headwords are white-space-delimited runs: the line
    reads in the fields of the pattern with headwords that hold no white
    space.  The pronunciation and the glosses are left as free as the
    pattern has them. *)
Definition spec_entry_shape (line : jsstring) : Prop :=
  ∃ t s p g, entry_fields line t s p g
             ∧ free_of is_space t ∧ free_of is_space s.

(** * Properties *)

(** ** The matcher *)

Section matcher.
Context (cls : code_unit → bool) (r : list atom).

Lemma run_char_inv idx s caps :
  run (AChar cls :: r) idx s = Some caps →
  ∃ c s', s = c :: s' ∧ cls c = true ∧ run r (S idx) s' = Some caps.
Proof.
  simpl. destruct s as [|c s']; [done|].
  destruct (cls c) eqn:Hc; [|done]. eauto.
Qed.

Lemma run_char_intro idx c s :
  cls c = true → run (AChar cls :: r) idx (c :: s) = run r (S idx) s.
Proof. simpl. by intros ->. Qed.

Lemma lazy_plus_inv k s : ∀ acc idx caps0,
  lazy_plus cls k acc idx s = Some caps0 →
  ∃ g s' caps, g ≠ [] ∧ Forall (λ c, cls c = true) g ∧ s = g ++ s'
    ∧ k (idx + length g) s' = Some caps ∧ caps0 = (acc ++ g) :: caps.
Proof.
  induction s as [|c s IH]; intros acc idx caps0; simpl; [done|].
  destruct (cls c) eqn:Hc; [|done].
  destruct (k (S idx) s) as [caps|] eqn:Hk.
  - intros [= <-]. exists [c], s, caps. simpl.
    replace (idx + 1) with (S idx) by lia. by repeat constructor.
  - intros (g & s' & caps & Hg & Hall & -> & Hk' & ->)%IH.
    exists (c :: g), s', caps. simpl.
    replace (idx + S (length g)) with (S idx + length g) by lia.
    rewrite <- app_assoc. split_and!; auto.
Qed.

Lemma lazy_plus_intro k g : ∀ acc idx s',
  g ≠ [] → Forall (λ c, cls c = true) g →
  is_Some (k (idx + length g) s') →
  is_Some (lazy_plus cls k acc idx (g ++ s')).
Proof.
  induction g as [|c g IH]; intros acc idx s' Hne Hall Hk; [done|].
  inversion_clear Hall as [|? ? Hc Hg]. simpl. rewrite Hc.
  destruct (k (S idx) (g ++ s')) as [caps|] eqn:Hk1; [by eexists|].
  destruct g as [|c' g'].
  - simpl in *. replace (idx + 1) with (S idx) in Hk by lia.
    rewrite Hk1 in Hk. by destruct Hk.
  - apply IH; [done|done|].
    by replace (S idx + length (c' :: g')) with (idx + length (c :: c' :: g'))
      by (simpl; lia).
Qed.

Lemma run_group_inv idx s caps0 :
  run (AGroup cls :: r) idx s = Some caps0 →
  ∃ g s' caps, g ≠ [] ∧ Forall (λ c, cls c = true) g ∧ s = g ++ s'
    ∧ run r (idx + length g) s' = Some caps ∧ caps0 = g :: caps.
Proof. simpl. intros H. by apply lazy_plus_inv in H. Qed.

Lemma run_group_intro idx g s' :
  g ≠ [] → Forall (λ c, cls c = true) g →
  is_Some (run r (idx + length g) s') →
  is_Some (run (AGroup cls :: r) idx (g ++ s')).
Proof. simpl. apply lazy_plus_intro. Qed.

(** A pattern anchored by [^] matches at index 0 or nowhere. *)
Lemma exec_from_anchored s : ∀ idx,
  0 < idx → exec_from (ABol :: r) idx s = None.
Proof.
  induction s as [|c s IH]; intros idx Hidx; simpl;
    (case_decide; [lia|]); [done|]. apply IH. lia.
Qed.

Lemma str_match_anchored s : str_match (ABol :: r) s = run r 0 s.
Proof.
  unfold str_match. destruct s as [|c s]; simpl.
  - by destruct (run r 0 []).
  - destruct (run r 0 (c :: s)); [done|]. apply exec_from_anchored. lia.
Qed.
End matcher.

(** The pattern matches exactly the lines of the entry shape that do not
    begin with [#], and captures four fields of it. *)
Lemma regex_match_inv line caps :
  str_match regex line = Some caps →
  head line ≠ Some HASH ∧
  ∃ t s p g, caps = [t; s; p; g] ∧ entry_fields line t s p g.
Proof.
  unfold regex. rewrite str_match_anchored. intros H.
  assert (head line ≠ Some HASH ∧
          run (tail (tail regex)) 0 line = Some caps) as [Hhash H'].
  { simpl in H. destruct line as [|c line]; [by split|].
    unfold is_unit in H. destruct (N.eqb_spec c HASH) as [->|Hne]; [done|].
    split; [|done]. simpl. congruence. }
  clear H. split; [done|]. unfold regex in H'. simpl tail in H'.
  apply run_group_inv in H' as (t & l1 & c1 & Ht & Htd & -> & H & ->).
  apply run_char_inv in H as (w1 & l2 & -> & Hw1 & H).
  apply run_group_inv in H as (s & l3 & c2 & Hs & Hsd & -> & H & ->).
  apply run_char_inv in H as (w2 & l4 & -> & Hw2 & H).
  apply run_char_inv in H as (b1 & l5 & -> & ->%N.eqb_eq & H).
  apply run_group_inv in H as (p & l6 & c3 & Hp & Hpd & -> & H & ->).
  apply run_char_inv in H as (b2 & l7 & -> & ->%N.eqb_eq & H).
  apply run_char_inv in H as (w3 & l8 & -> & Hw3 & H).
  apply run_char_inv in H as (b3 & l9 & -> & ->%N.eqb_eq & H).
  apply run_group_inv in H as (g & l10 & c4 & Hg & Hgd & -> & H & ->).
  apply run_char_inv in H as (b4 & l11 & -> & ->%N.eqb_eq & H).
  simpl in H. destruct l11; [|done]. injection H as <-.
  exists t, s, p, g. split; [done|]. exists w1, w2, w3.
  split_and!; try done.
Qed.

Lemma regex_match_intro line t s p g :
  entry_fields line t s p g → head line ≠ Some HASH →
  is_Some (str_match regex line).
Proof.
  intros (w1 & w2 & w3 & -> & Hw1 & Hw2 & Hw3 & [Ht Htd] & [Hs Hsd]
          & [Hp Hpd] & [Hg Hgd]) Hhash.
  unfold regex. rewrite str_match_anchored.
  assert (∀ l, is_Some (run (tail (tail regex)) 0 (t ++ l)) →
               head (t ++ l) ≠ Some HASH →
               is_Some (run (tail regex) 0 (t ++ l))) as Hlook.
  { intros l Hr Hh. destruct t as [|c t]; [done|]. simpl in *.
    unfold is_unit. destruct (N.eqb_spec c HASH) as [->|]; [done|done]. }
  apply Hlook; [|done]. unfold regex; simpl tail.
  apply run_group_intro; [done..|]. rewrite run_char_intro by done.
  apply run_group_intro; [done..|]. rewrite run_char_intro by done.
  rewrite run_char_intro by apply N.eqb_refl.
  apply run_group_intro; [done..|].
  rewrite run_char_intro by apply N.eqb_refl.
  rewrite run_char_intro by done.
  rewrite run_char_intro by apply N.eqb_refl.
  apply run_group_intro; [done..|].
  rewrite run_char_intro by apply N.eqb_refl. simpl. by eexists.
Qed.

(** ** [parseLine] *)

Lemma parseLine_Some_inv line e :
  parseLine line = Some e →
  ∃ g, str_match regex (trim line)
         = Some [traditional e; simplified e; pinyin e; g]
       ∧ definitions e = List.filter non_empty (split SLASH g)
       ∧ entry_fields (trim line) (traditional e) (simplified e) (pinyin e) g
       ∧ head (trim line) ≠ Some HASH.
Proof.
  unfold parseLine. intros H.
  destruct (str_match regex (trim line)) as [caps|] eqn:Hm; [|done].
  destruct (regex_match_inv _ _ Hm) as (Hhash & t & s & p & g & -> & Hf).
  injection H as <-. exists g. by simpl.
Qed.

Lemma parseLine_is_Some line :
  is_Some (parseLine line) ↔
  entry_shape (trim line) ∧ head (trim line) ≠ Some HASH.
Proof.
  split.
  - intros [e (g & _ & _ & Hf & Hh)%parseLine_Some_inv].
    split; [|done]. by exists (traditional e), (simplified e), (pinyin e), g.
  - intros [(t & s & p & g & Hf) Hh].
    destruct (regex_match_intro _ _ _ _ _ Hf Hh) as [caps Hm].
    destruct (regex_match_inv _ _ Hm) as (_ & t' & s' & p' & g' & -> & _).
    unfold parseLine. rewrite Hm. by eexists.
Qed.

Lemma filter_non_empty_spec (l : list jsstring) :
  ¬ In [] (List.filter non_empty l) ∧
  ((∃ x, x ∈ l ∧ x ≠ []) → List.filter non_empty l ≠ []).
Proof.
  split.
  - rewrite filter_In. by intros [_ ?].
  - intros (x & Hx & Hne) Hnil.
    assert (In x (List.filter non_empty l)) as Hin.
    { apply filter_In. split; [by apply list_elem_of_In|]. by destruct x. }
    by rewrite Hnil in Hin.
Qed.


(** C4, amended. Parse rejection: [parseLine] trims the line, and
    returns null (it is a total function, nothing is thrown) when the
    trimmed line begins with the comment marker [#] or is not a line the
    pattern accepts: four non-empty fields without line terminators,
    which may hold white space, brackets and slashes, set as
    [<traditional> <simplified> [<pronunciation>] /<def1>/.../<defN>/]
    with one white-space unit for each blank. *)
Theorem parseLine_rejects (line : jsstring) :
  head (trim line) = Some HASH ∨ ¬ entry_shape (trim line) →
  parseLine line = None.
Proof.
  intros Hrej. destruct (parseLine line) as [e|] eqn:He; [|done].
  assert (is_Some (parseLine line)) as [Hshape Hhash]%parseLine_is_Some
    by (by rewrite He).
  by destruct Hrej.
Qed.

(** The comment line [#!comment] yields null. *)
Lemma parseLine_rejects_witness :
  (head (trim (lit "#!comment")) = Some HASH
   ∨ ¬ entry_shape (trim (lit "#!comment")))
  ∧ parseLine (lit "#!comment") = None.
Proof.
  split; [left; reflexivity|].
  apply (parseLine_rejects (lit "#!comment")). left. reflexivity.
Defined.

(** ** The pieces of a split *)

Lemma split_non_empty sep (s : jsstring) : split sep s ≠ [].
Proof.
  destruct s as [|c s]; simpl; [done|].
  destruct (c =? sep)%N; [done|]. by destruct (split sep s).
Qed.

Lemma split_pieces sep (s : jsstring) :
  Forall (λ x, free_of (is_unit sep) x ∧ ∀ c, c ∈ x → c ∈ s) (split sep s).
Proof.
  induction s as [|c s IH]; simpl.
  - constructor; [|constructor]. split; [constructor|].
    intros c Hc. by apply elem_of_nil in Hc.
  - assert (Forall (λ x, free_of (is_unit sep) x ∧ ∀ c', c' ∈ x → c' ∈ c :: s)
                   (split sep s)) as IH'.
    { eapply Forall_impl; [exact IH|]. intros x [Hx Hin]. split; [done|].
      intros c' Hc'. right. by apply Hin. }
    destruct (N.eqb_spec c sep) as [->|Hne].
    + constructor; [|done]. split; [constructor|].
      intros c Hc. by apply elem_of_nil in Hc.
    + destruct (split sep s) as [|piece pieces].
      * constructor; [|constructor]. split.
        -- constructor; [by apply N.eqb_neq|constructor].
        -- intros c' ->%list_elem_of_singleton. left.
      * inversion_clear IH' as [|? ? [Hfree Hin] Hrest].
        constructor; [|done]. split.
        -- constructor; [by apply N.eqb_neq|done].
        -- intros c' [->|Hc']%elem_of_cons; [left|by apply Hin].
Qed.

Lemma join_split sep (s : jsstring) : join sep (split sep s) = s.
Proof.
  induction s as [|c s IH]; simpl; [done|].
  pose proof (split_non_empty sep s) as Hne.
  destruct (N.eqb_spec c sep) as [->|Hc].
  - destruct (split sep s) as [|piece pieces]; [done|]. simpl in *.
    by rewrite IH.
  - destruct (split sep s) as [|piece pieces]; [done|].
    destruct pieces as [|piece' pieces]; simpl in *; by rewrite <- IH.
Qed.

Lemma filter_non_empty_pieces (l : list jsstring) :
  List.filter non_empty l = filter (λ x : jsstring, x ≠ []) l.
Proof.
  induction l as [|x l IH]; [done|].
  destruct x as [|c x].
  - rewrite filter_cons_False by (intros H; by apply H). done.
  - rewrite filter_cons_True by done. simpl. by rewrite IH.
Qed.

(** C5. Parse success: on a non-null result both headwords are
    non-empty, and [definitions] is the gloss segment [g] captured by
    the fourth group, cut at every [/], without the empty pieces: [g] is
    its pieces, none of which holds a [/], joined by [/], and
    [definitions] is the non-empty ones in order; so it holds no empty
    string, and is non-empty as soon as one piece is. *)
Theorem parseLine_postcondition (line : jsstring) (e : DictionaryEntry) :
  parseLine line = Some e →
  traditional e ≠ [] ∧ simplified e ≠ [] ∧
  ∃ g pieces,
    str_match regex (trim line)
      = Some [traditional e; simplified e; pinyin e; g]
    ∧ entry_fields (trim line) (traditional e) (simplified e) (pinyin e) g
    ∧ pieces ≠ []
    ∧ Forall (free_of (is_unit SLASH)) pieces
    ∧ join SLASH pieces = g
    ∧ definitions e = filter (λ x : jsstring, x ≠ []) pieces
    ∧ ¬ In [] (definitions e)
    ∧ ((∃ gloss, gloss ∈ pieces ∧ gloss ≠ []) → definitions e ≠ []).
Proof.
  intros (g & Hm & Hd & Hf & _)%parseLine_Some_inv.
  pose proof Hf as (w1 & w2 & w3 & _ & _ & _ & _ & [Ht _] & [Hs _] & _).
  split_and!; [done..|]. exists g, (split SLASH g).
  destruct (filter_non_empty_spec (split SLASH g)) as [Hno Hsome].
  rewrite Hd. split_and!; try done.
  - apply split_non_empty.
  - eapply Forall_impl; [apply split_pieces|]. by intros x [Hx _].
  - apply join_split.
  - apply filter_non_empty_pieces.
Qed.

(** The gloss segment [d/e//f] has the pieces [d], [e], the empty string
    and [f]; the empty one is left out. *)
Lemma parseLine_postcondition_witness :
  ∃ g pieces,
    str_match regex (trim (lit "  a b c [p q] /d/e//f/  "))
      = Some [lit "a"; lit "b c"; lit "p q"; g]
    ∧ entry_fields (trim (lit "  a b c [p q] /d/e//f/  "))
        (lit "a") (lit "b c") (lit "p q") g
    ∧ pieces ≠ []
    ∧ Forall (free_of (is_unit SLASH)) pieces
    ∧ join SLASH pieces = g
    ∧ [lit "d"; lit "e"; lit "f"] = filter (λ x : jsstring, x ≠ []) pieces
    ∧ ¬ In [] [lit "d"; lit "e"; lit "f"]
    ∧ ((∃ gloss, gloss ∈ pieces ∧ gloss ≠ []) → [lit "d"; lit "e"; lit "f"] ≠ []).
Proof.
  apply (parseLine_postcondition (lit "  a b c [p q] /d/e//f/  ")
           {| traditional := lit "a"; simplified := lit "b c";
              pinyin := lit "p q";
              definitions := [lit "d"; lit "e"; lit "f"] |}).
  reflexivity.
Defined.

(** C4, as stated, fails: [a b c [p] /d/] has three runs before the
    bracket, so it is not of the shape of the specification, yet it
    parses, with the simplified headword [b c]. *)
Lemma parseLine_accepts_outside_spec_shape :
  ¬ (∀ line, head (trim line) = Some HASH ∨ ¬ spec_entry_shape (trim line) →
             parseLine line = None).
Proof.
  intros Hclaim.
  assert (parseLine (lit "a b c [p] /d/") = None) as Hnone;
    [|vm_compute in Hnone; discriminate Hnone].
  apply Hclaim. right.
  intros (t & s & p & g & (w1 & w2 & w3 & Hline & _ & _ & _ & [Ht _] & [Hs _] & _)
          & Htf & Hsf).
  change (trim (lit "a b c [p] /d/"))
    with [97; 32; 98; 32; 99; 32; 91; 112; 93; 32; 47; 100; 47]%N in Hline.
  destruct t as [|c0 [|c1 t]]; [done| |].
  - injection Hline as <- <- Hline.
    destruct s as [|d0 [|d1 s]]; [done| |].
    + injection Hline as <- <- Hline. discriminate Hline.
    + injection Hline as <- <- Hline.
      inversion_clear Hsf as [|? ? _ Hsf']. inversion_clear Hsf' as [|? ? Hd1 _].
      vm_compute in Hd1. discriminate Hd1.
  - injection Hline as <- <- Hline.
    inversion_clear Htf as [|? ? _ Htf']. inversion_clear Htf' as [|? ? Hc1 _].
    vm_compute in Hc1. discriminate Hc1.
Qed.

(** The pattern lets a headword hold white space when more than two runs
    precede the bracket. *)
Example parseLine_three_runs :
  parseLine (lit "a b c [p] /d/")
  = Some {| traditional := lit "a"; simplified := lit "b c";
            pinyin := lit "p"; definitions := [lit "d"] |}.
Proof. reflexivity. Qed.

Example parseLine_no_gloss :
  definitions <$> parseLine (lit "a b [p] ///") = Some [].
Proof. reflexivity. Qed.

(** ** Loading the lines *)

Lemma load_line_headword m line e k :
  parseLine line = Some e → headword k e → load_line m line !! k = Some e.
Proof.
  unfold load_line. intros -> Hk.
  destruct (decide (k = simplified e)) as [->|Hne].
  - apply lookup_insert_eq.
  - rewrite lookup_insert_ne by done.
    destruct Hk as [->| ->]; [apply lookup_insert_eq|done].
Qed.

Lemma load_line_other m line k :
  (∀ e, parseLine line = Some e → ¬ headword k e) →
  load_line m line !! k = m !! k.
Proof.
  unfold load_line. intros Hk. destruct (parseLine line) as [e|]; [|done].
  specialize (Hk e eq_refl). unfold headword in Hk.
  rewrite !lookup_insert_ne; [done|..]; intros Heq; apply Hk; auto.
Qed.

Lemma load_lines_other lines : ∀ m k,
  (∀ line e, line ∈ lines → parseLine line = Some e → ¬ headword k e) →
  load_lines lines m !! k = m !! k.
Proof.
  unfold load_lines.
  induction lines as [|line lines IH]; intros m k Hk; simpl; [done|].
  rewrite IH.
  - apply load_line_other. intros e. apply Hk. left.
  - intros l e Hl. apply Hk. by right.
Qed.

Lemma load_lines_app pre post m :
  load_lines (pre ++ post) m = load_lines post (load_lines pre m).
Proof. apply foldl_app. Qed.

(** Every key of the map comes from a parsed line, or was there before. *)
Lemma load_lines_lookup_inv lines : ∀ m k e,
  load_lines lines m !! k = Some e →
  m !! k = Some e ∨
  ∃ line, line ∈ lines ∧ parseLine line = Some e ∧ headword k e.
Proof.
  unfold load_lines.
  induction lines as [|line lines IH]; intros m k e; simpl; [by left|].
  intros [Hm|(l & Hl & Hp & Hk)]%IH.
  - unfold load_line in Hm. destruct (parseLine line) as [e'|] eqn:Hp; [|by left].
    unfold headword.
    apply lookup_insert_Some in Hm as [[<- <-]|[Hne Hm]].
    { right. exists line. split_and!; [left|done|by right]. }
    apply lookup_insert_Some in Hm as [[<- <-]|[Hne' Hm]]; [|by left].
    right. exists line. split_and!; [left|done|by left].
  - right. exists l. split_and!; [by right|done..].
Qed.

Lemma entries_build raw :
  entries (build raw) = load_lines (split NEWLINE raw) ∅.
Proof. reflexivity. Qed.

Lemma build_key_non_empty raw k :
  k ∈ dom (entries (build raw)) → k ≠ [].
Proof.
  rewrite entries_build.
  intros [e [Hm|(line & _ & Hp & Hk)]%load_lines_lookup_inv]%elem_of_dom;
    [done|].
  apply parseLine_Some_inv in Hp as (g & _ & _ & Hf & _).
  destruct Hf as (w1 & w2 & w3 & _ & _ & _ & _ & [Ht _] & [Hs _] & _).
  by destruct Hk as [->| ->].
Qed.

(** C3. Dual-key insertion, last write wins: the entry of a parsed line
    is stored under its traditional and under its simplified headword,
    and the map holds at a key the entry of the last line, in source
    order, that has the key as a headword.  Loading is a total function:
    a collision raises nothing. *)
Theorem build_last_write_wins (raw : jsstring) (pre post : list jsstring)
    (line : jsstring) (e : DictionaryEntry) (k : jsstring) :
  split NEWLINE raw = pre ++ line :: post →
  parseLine line = Some e →
  k = traditional e ∨ k = simplified e →
  (∀ l' e', l' ∈ post → parseLine l' = Some e' →
            k ≠ traditional e' ∧ k ≠ simplified e') →
  entries (build raw) !! k = Some e.
Proof.
  intros Hlines Hp Hk Hpost. rewrite entries_build, Hlines.
  rewrite load_lines_app. change (line :: post) with ([line] ++ post).
  rewrite load_lines_app. rewrite load_lines_other.
  - by apply load_line_headword.
  - intros l' e' Hl' Hp' [?|?]; destruct (Hpost l' e' Hl' Hp'); done.
Qed.

(** The simplified headword of the first line is the traditional
    headword of the second: the second entry is the one found. *)
Lemma build_last_write_wins_witness :
  entries (build (lit "a b [p] /x/" ++ [NEWLINE] ++ lit "b c [q] /y/")) !! lit "b"
  = Some {| traditional := lit "b"; simplified := lit "c"; pinyin := lit "q";
            definitions := [lit "y"] |}.
Proof.
  apply (build_last_write_wins _ [lit "a b [p] /x/"] [] (lit "b c [q] /y/")).
  - reflexivity.
  - reflexivity.
  - left. reflexivity.
  - intros l' e' Hl'. by apply elem_of_nil in Hl'.
Defined.

(** ** The longest key *)

Lemma keys_elem_of (m : gmap jsstring DictionaryEntry) k :
  k ∈ keys m ↔ k ∈ dom m.
Proof.
  unfold keys. rewrite elem_of_dom, list_elem_of_fmap. split.
  - intros ([k' v] & -> & Hkv%elem_of_map_to_list). by exists v.
  - intros [v Hv]. exists (k, v). split; [done|]. by apply elem_of_map_to_list.
Qed.

Lemma foldl_longest (l : list jsstring) : ∀ a,
  let r := foldl (λ maxLen key, if maxLen <? length key then length key else maxLen)
                 a l in
  a ≤ r ∧ (∀ x, x ∈ l → length x ≤ r) ∧ (r = a ∨ ∃ x, x ∈ l ∧ length x = r).
Proof.
  induction l as [|x l IH]; intros a; simpl.
  - split_and!; [lia| |by left]. intros x Hx. by apply elem_of_nil in Hx.
  - destruct (IH (if a <? length x then length x else a)) as (Hle & Hall & Hex).
    destruct (Nat.ltb_spec a (length x)) as [Hlt|Hge].
    + split_and!; [lia| |].
      * intros y [->|Hy]%elem_of_cons; [lia|by apply Hall].
      * right. destruct Hex as [->|(y & Hy & <-)];
          [exists x; split; [left|done] | exists y; split; [by right|done]].
    + split_and!; [lia| |].
      * intros y [->|Hy]%elem_of_cons; [lia|by apply Hall].
      * destruct Hex as [->|(y & Hy & <-)]; [by left|].
        right. exists y. split; [by right|done].
Qed.

Lemma longest_key_bound (m : gmap jsstring DictionaryEntry) k :
  k ∈ dom m → length k ≤ longest_key m.
Proof.
  intros Hk. unfold longest_key.
  destruct (foldl_longest (keys m) 0) as (_ & Hall & _).
  by apply Hall, keys_elem_of.
Qed.

Lemma build_key_length raw k :
  k ∈ dom (entries (build raw)) → 1 ≤ length k ≤ maxKeyLength (build raw).
Proof.
  intros Hk. split.
  - apply build_key_non_empty in Hk. destruct k; [done|simpl; lia].
  - by apply (longest_key_bound (entries (build raw))).
Qed.

(** C6, amended. After construction [maxKeyLength] is the maximum of
    [key.length], the number of UTF-16 code units, over the keys of the
    map, and 0 when the map is empty. *)
Theorem maxKeyLength_is_max_code_unit_length (raw : jsstring) :
  is_max_key_length length (entries (build raw)) (maxKeyLength (build raw)).
Proof.
  change (maxKeyLength (build raw)) with (longest_key (entries (build raw))).
  generalize (entries (build raw)). intros m. split_and!.
  - intros k. apply longest_key_bound.
  - intros Hne. unfold longest_key.
    destruct (foldl_longest (keys m) 0) as (_ & Hall & [H0|(k & Hk & Hlen)]).
    + destruct (map_choose m Hne) as (k & v & Hkv).
      assert (k ∈ dom m) as Hk by (apply elem_of_dom; by exists v).
      exists k. split; [done|].
      pose proof (Hall k (proj2 (keys_elem_of m k) Hk)). lia.
    + exists k. split; [by apply keys_elem_of|done].
  - intros ->. reflexivity.
Qed.

(** C6, as stated, fails: the only key of this index is one character
    long and [maxKeyLength] is 2. *)
Lemma maxKeyLength_not_character_length :
  ¬ is_max_key_length char_length (entries (build astral_source))
      (maxKeyLength (build astral_source)).
Proof.
  intros (_ & Hex & _).
  destruct Hex as (k & Hk & Hlen).
  - intros Hempty.
    assert (entries (build astral_source) !! [0xD840; 0xDC00]%N = None) as H
      by (by rewrite Hempty).
    vm_compute in H. discriminate H.
  - apply elem_of_dom in Hk as [e He]. rewrite entries_build in He.
    destruct (load_lines_lookup_inv _ _ _ _ He) as [He'|(line & Hl & Hp & Hhw)].
    { rewrite lookup_empty in He'. discriminate He'. }
    assert (line = astral_source) as ->.
    { change (split NEWLINE astral_source) with [astral_source] in Hl.
      by apply list_elem_of_singleton in Hl. }
    vm_compute in Hp. injection Hp as <-.
    destruct Hhw as [->| ->]; vm_compute in Hlen; discriminate Hlen.
Qed.

(** ** [substring] and the scan of [findLongestMatch] *)

Lemma substring_in_bounds (text : jsstring) (i : Z) (L : nat) :
  (0 ≤ i)%Z → (i + Z.of_nat L ≤ Z.of_nat (length text))%Z →
  substring text i (i + Z.of_nat L) = take L (drop (Z.to_nat i) text).
Proof.
  intros Hi HL. unfold substring.
  replace (Z.min (Z.max i 0) (Z.of_nat (length text))) with i by lia.
  replace (Z.min (Z.max (i + Z.of_nat L) 0) (Z.of_nat (length text)))
    with (i + Z.of_nat L)%Z by lia.
  replace (Z.min i (i + Z.of_nat L)) with i by lia.
  replace (Z.max i (i + Z.of_nat L) - i)%Z with (Z.of_nat L) by lia.
  by rewrite Nat2Z.id.
Qed.

Lemma substring_length (text : jsstring) (i : Z) (L : nat) :
  (0 ≤ i)%Z → (i + Z.of_nat L ≤ Z.of_nat (length text))%Z →
  length (substring text i (i + Z.of_nat L)) = L.
Proof.
  intros Hi HL. rewrite substring_in_bounds by done.
  rewrite length_take, length_drop. lia.
Qed.

Section scan.
Context (m : gmap jsstring DictionaryEntry) (text : jsstring) (i : Z).

Lemma longest_from_None n :
  longest_from m text i n = None →
  ∀ L, 1 ≤ L ≤ n → (i + Z.of_nat L ≤ Z.of_nat (length text))%Z →
       substring text i (i + Z.of_nat L) ∉ dom m.
Proof.
  induction n as [|n IH]; intros Hscan L HL Hin; [lia|].
  cbn [longest_from] in Hscan.
  destruct (decide (L = S n)) as [->|Hne].
  - rewrite bool_decide_eq_true_2 in Hscan by done.
    case_bool_decide as Hhas; [done|]. by rewrite elem_of_dom.
  - apply IH; [|lia|done].
    repeat case_bool_decide; done.
Qed.

Lemma longest_from_Some n sub :
  longest_from m text i n = Some sub →
  ∃ L, 1 ≤ L ≤ n
    ∧ (i + Z.of_nat L ≤ Z.of_nat (length text))%Z
    ∧ sub = substring text i (i + Z.of_nat L)
    ∧ sub ∈ dom m
    ∧ ∀ L', L < L' ≤ n → (i + Z.of_nat L' ≤ Z.of_nat (length text))%Z →
            substring text i (i + Z.of_nat L') ∉ dom m.
Proof.
  induction n as [|n IH]; intros Hscan; [done|].
  cbn [longest_from] in Hscan.
  assert (longest_from m text i n = Some sub →
          (∀ L', L' = S n → (i + Z.of_nat L' ≤ Z.of_nat (length text))%Z →
                 substring text i (i + Z.of_nat L') ∉ dom m) →
          ∃ L, 1 ≤ L ≤ S n
            ∧ (i + Z.of_nat L ≤ Z.of_nat (length text))%Z
            ∧ sub = substring text i (i + Z.of_nat L)
            ∧ sub ∈ dom m
            ∧ ∀ L', L < L' ≤ S n →
                (i + Z.of_nat L' ≤ Z.of_nat (length text))%Z →
                substring text i (i + Z.of_nat L') ∉ dom m) as Hrec.
  { intros (L & HL & Hin & Hsub & Hdom & Hlonger)%IH Htop.
    exists L. split_and!; [lia|lia|done|done|done|].
    intros L' HL' Hin'. destruct (decide (L' = S n)) as [->|?].
    - by apply Htop.
    - apply Hlonger; [lia|done]. }
  case_bool_decide as Hin.
  - case_bool_decide as Hhas.
    + injection Hscan as <-. exists (S n).
      split_and!; [lia|lia|done|done|by apply elem_of_dom|]. intros; lia.
    + apply Hrec; [done|]. intros L' -> _. by rewrite elem_of_dom.
  - apply Hrec; [done|]. intros L' -> Hin'. done.
Qed.
End scan.

Lemma findLongestMatch_build raw text i :
  result (findLongestMatch (build raw) text i)
  = longest_from (entries (build raw)) text i (maxKeyLength (build raw)).
Proof. reflexivity. Qed.

Lemma matches_at_length raw text i key :
  (0 ≤ i)%Z → matches_at (entries (build raw)) text i key →
  1 ≤ length key ≤ maxKeyLength (build raw).
Proof. intros _ [Hk _]. by apply build_key_length. Qed.

(** C1. Maximal munch: on a built index and a position inside the text,
    if some key occurs at the position, in bounds, then
    [findLongestMatch] returns the occurring key of maximal length; and
    if no length in [1, maxKeyLength] gives a key in bounds, it returns
    null. *)
Theorem findLongestMatch_maximal_munch (raw text : jsstring) (i : Z) :
  (0 ≤ i ≤ Z.of_nat (length text))%Z →
  ((∃ key, matches_at (entries (build raw)) text i key) →
   ∃ found, result (findLongestMatch (build raw) text i) = Some found
     ∧ matches_at (entries (build raw)) text i found
     ∧ ∀ key, matches_at (entries (build raw)) text i key →
              length key ≤ length found)
  ∧ ((∀ L, 1 ≤ L ≤ maxKeyLength (build raw) →
           (i + Z.of_nat L ≤ Z.of_nat (length text))%Z →
           substring text i (i + Z.of_nat L) ∉ dom (entries (build raw))) →
     result (findLongestMatch (build raw) text i) = None).
Proof.
  intros [Hi Hlen]. rewrite findLongestMatch_build.
  destruct (longest_from (entries (build raw)) text i (maxKeyLength (build raw)))
    as [found|] eqn:Hscan.
  - apply longest_from_Some in Hscan as (L & HL & Hin & Hsub & Hdom & Hlonger).
    assert (length found = L) as HfL by (subst found; by apply substring_length).
    split.
    + intros _. exists found. split_and!; [done| |].
      * unfold matches_at. rewrite HfL. done.
      * intros key Hkey. pose proof (matches_at_length _ _ _ _ Hi Hkey) as Hk.
        destruct Hkey as (Hkdom & Hkin & Hksub).
        destruct (decide (length key ≤ length found)) as [|Hgt]; [done|].
        exfalso. apply (Hlonger (length key)); [lia|done|].
        by rewrite <- Hksub.
    + intros Hnone. exfalso. apply (Hnone L HL Hin). by rewrite <- Hsub.
  - split; [|done]. intros (key & Hkey).
    pose proof (matches_at_length _ _ _ _ Hi Hkey) as Hk.
    destruct Hkey as (Hkdom & Hkin & Hksub).
    exfalso. apply (longest_from_None _ _ _ _ Hscan (length key) Hk Hkin).
    by rewrite <- Hksub.
Qed.

Lemma furniture_key :
  matches_at (entries (build furniture_line)) furniture_text 3 [0x5BB6; 0x5177]%N.
Proof.
  split_and!; [|vm_compute; discriminate|reflexivity].
  apply elem_of_dom. vm_compute. by eexists.
Qed.

(** With the one entry [傢俱 家具] loaded, position 3 of [他買了家具] gives
    the two-unit word [家具]. *)
Lemma findLongestMatch_maximal_munch_witness :
  ∃ found, result (findLongestMatch (build furniture_line) furniture_text 3)
           = Some found
    ∧ matches_at (entries (build furniture_line)) furniture_text 3 found
    ∧ 2 ≤ length found.
Proof.
  assert (0 ≤ 3 ≤ Z.of_nat (length furniture_text))%Z as Hpos
    by (vm_compute; split; discriminate).
  destruct (findLongestMatch_maximal_munch furniture_line furniture_text 3 Hpos)
    as [Hmunch _].
  destruct Hmunch as (found & Hfound & Hmatch & Hmax).
  - exists [0x5BB6; 0x5177]%N. apply furniture_key.
  - exists found. split_and!; [done..|].
    apply (Hmax [0x5BB6; 0x5177]%N furniture_key).
Defined.

(** C7, amended. Positions and candidate lengths are counts of UTF-16
    code units: on a built index and a start index inside the text, a
    match is returned exactly when some key, [L] code units long, equals
    the [L] code units of the text from the start index, in bounds. *)
Theorem findLongestMatch_code_unit_indexed (raw text : jsstring) (i : Z) :
  (0 ≤ i ≤ Z.of_nat (length text))%Z →
  is_Some (result (findLongestMatch (build raw) text i))
  ↔ ∃ key, matches_at (entries (build raw)) text i key.
Proof.
  intros [Hi Hlen]. rewrite findLongestMatch_build. split.
  - intros [found Hfound].
    apply longest_from_Some in Hfound as (L & HL & Hin & Hsub & Hdom & _).
    exists found. unfold matches_at.
    replace (length found) with L
      by (subst found; symmetry; by apply substring_length).
    done.
  - intros (key & Hkey).
    pose proof (matches_at_length _ _ _ _ Hi Hkey) as Hk.
    destruct Hkey as (Hkdom & Hkin & Hksub).
    destruct (longest_from (entries (build raw)) text i (maxKeyLength (build raw)))
      as [found|] eqn:Hscan; [by eexists|].
    exfalso. apply (longest_from_None _ _ _ _ Hscan (length key) Hk Hkin).
    by rewrite <- Hksub.
Qed.

Lemma findLongestMatch_code_unit_indexed_witness :
  is_Some (result (findLongestMatch (build furniture_line) furniture_text 3)).
Proof.
  apply (findLongestMatch_code_unit_indexed furniture_line furniture_text 3).
  - vm_compute. split; discriminate.
  - exists [0x5BB6; 0x5177]%N. apply furniture_key.
Defined.

(** C7, as stated, fails: with the key [a] loaded, the character at
    character position 1 of [astral_text] is [a], yet code-unit position
    1 is the second half of the surrogate pair and nothing is found. *)
Lemma findLongestMatch_not_character_indexed :
  1 ≤ char_length astral_text
  ∧ ¬ character_indexed (build (lit "a a [x] /y/")) astral_text 1.
Proof.
  split; [vm_compute; lia|]. intros [_ Hfind].
  assert (is_Some (result (findLongestMatch (build (lit "a a [x] /y/"))
                             astral_text (Z.of_nat 1)))) as [found Hfound].
  { apply Hfind. exists (lit "a"). split_and!.
    - apply elem_of_dom. vm_compute. by eexists.
    - vm_compute. lia.
    - reflexivity. }
  vm_compute in Hfound. discriminate Hfound.
Qed.

(** ** The segmentation loop *)

Lemma findLongestMatch_Some_inv d text (i : nat) sub :
  result (findLongestMatch d text (Z.of_nat i)) = Some sub →
  ∃ L, 1 ≤ L ∧ i + L ≤ length text ∧ length sub = L
       ∧ sub = take L (drop i text).
Proof.
  unfold findLongestMatch. destruct (isInitialized d); simpl; [|done].
  intros (L & HL & Hin & Hsub & _)%longest_from_Some.
  exists L. rewrite Hsub.
  rewrite substring_length, substring_in_bounds, Nat2Z.id by lia.
  split_and!; [lia|lia|done|done].
Qed.

Lemma unit_at_lookup (text : jsstring) i :
  i < length text →
  ∃ c, text !! i = Some c ∧ unit_at text i = [c]
       ∧ unit_at text i = take 1 (drop i text).
Proof.
  intros [c Hc]%lookup_lt_is_Some_2. exists c. unfold unit_at. rewrite Hc.
  split_and!; [done..|]. by rewrite (drop_S _ _ _ Hc).
Qed.

Section segmentation.
Context (d : Dictionary) (text : jsstring).

Lemma segment_loop_done fuel i acc :
  length text ≤ i → segment_loop fuel d text i acc = Some acc.
Proof. intros Hi. destruct fuel; simpl; case_decide; done || lia. Qed.

Lemma segment_loop_spec fuel : ∀ i acc,
  i ≤ length text → length text - i ≤ fuel →
  ∃ segs, segment_loop fuel d text i acc = Some (acc ++ segs)
    ∧ tiles text i segs
    ∧ concat (content <$> segs) = drop i text
    ∧ Forall (segment_ok d text) segs.
Proof.
  induction fuel as [|fuel IH]; intros i acc Hi Hfuel.
  { exists []. rewrite segment_loop_done, app_nil_r by lia.
    split_and!; [done|simpl; lia| |done].
    simpl. by rewrite drop_ge by lia. }
  destruct (decide (i < length text)) as [Hlt|Hge]; cycle 1.
  { exists []. rewrite segment_loop_done, app_nil_r by lia.
    split_and!; [done|simpl; lia| |done].
    simpl. by rewrite drop_ge by lia. }
  (* one iteration that emits the segment [sg] of length [L] *)
  assert (∀ sg L,
    segment_loop (S fuel) d text i acc
      = segment_loop fuel d text (i + L) (acc ++ [sg]) →
    startIndex sg = i → 1 ≤ L → i + L ≤ length text →
    length (content sg) = L → content sg = take L (drop i text) →
    segment_ok d text sg →
    ∃ segs, segment_loop (S fuel) d text i acc = Some (acc ++ segs)
      ∧ tiles text i segs
      ∧ concat (content <$> segs) = drop i text
      ∧ Forall (segment_ok d text) segs) as Hiter.
  { intros sg L -> Hstart HL Hin Hlen Hcontent Hok.
    destruct (IH (i + L) (acc ++ [sg])) as (segs & -> & Htiles & Hcat & Hall);
      [lia..|].
    exists (sg :: segs). rewrite <- app_assoc. split_and!; [done| | |by constructor].
    - simpl. rewrite Hlen. split_and!; [done| |done|done|done].
      intros Hnil. rewrite Hnil in Hlen. simpl in Hlen. lia.
    - change (concat (content <$> sg :: segs))
        with (content sg ++ concat (content <$> segs)).
      rewrite Hcat, Hcontent, <- drop_drop. apply take_drop. }
  destruct (unit_at_lookup text i Hlt) as (u & Hu & Hunit & Htake).
  assert (∀ sg,
    sg = {| content := unit_at text i; isMatch := false; startIndex := i |} →
    segment_loop (S fuel) d text i acc
      = segment_loop fuel d text (i + 1) (acc ++ [sg]) →
    ∃ segs, segment_loop (S fuel) d text i acc = Some (acc ++ segs)
      ∧ tiles text i segs
      ∧ concat (content <$> segs) = drop i text
      ∧ Forall (segment_ok d text) segs) as Hunmatched.
  { intros sg -> Hstep. apply (Hiter _ 1 Hstep); simpl; try done; try lia.
    - by rewrite Hunit.
    - unfold segment_ok. simpl. by rewrite Hunit. }
  destruct (result (findLongestMatch d text (Z.of_nat i)))
    as [[|c found]|] eqn:Hfind.
  - eapply Hunmatched; [done|]. simpl. rewrite decide_True by done.
    by rewrite Hfind.
  - destruct (findLongestMatch_Some_inv _ _ _ _ Hfind)
      as (L & HL & Hin & Hlen & Hsub).
    eapply (Hiter {| content := c :: found; isMatch := true; startIndex := i |} L);
      simpl; try done.
    + rewrite decide_True by done. rewrite Hfind. by rewrite <- Hlen.
  - eapply Hunmatched; [done|]. simpl. rewrite decide_True by done.
    by rewrite Hfind.
Qed.
End segmentation.

(** C2. Round-trip segmentation: on every built index and every text the
    loop of [InteractiveText] ends with a list of segments that is
    contiguous, non-overlapping and covers the text from 0 to its length
    ([tiles]), whose contents concatenated are the text; a matched
    segment is the result of [findLongestMatch] at its start, an
    unmatched one is a single unit. *)
Theorem segmentation_round_trip (raw text : jsstring) :
  ∃ segs, InteractiveText_segments (build raw) text = Some segs
    ∧ tiles text 0 segs
    ∧ concat (content <$> segs) = text
    ∧ Forall (segment_ok (build raw) text) segs.
Proof.
  destruct (segment_loop_spec (build raw) text (length text) 0 [])
    as (segs & Hrun & Htiles & Hcat & Hall); [lia..|].
  exists segs. rewrite drop_0 in Hcat. by split_and!.
Qed.

Example segmentation_furniture :
  InteractiveText_segments (build furniture_line) furniture_text
  = Some [ {| content := [0x4ED6]%N; isMatch := false; startIndex := 0 |};
           {| content := [0x8CB7]%N; isMatch := false; startIndex := 1 |};
           {| content := [0x4E86]%N; isMatch := false; startIndex := 2 |};
           {| content := [0x5BB6; 0x5177]%N; isMatch := true; startIndex := 3 |} ].
Proof. vm_compute. reflexivity. Qed.

(** The examples of the specification, with the one entry loaded. *)
Example get_furniture :
  result (get (build furniture_line) [0x5BB6; 0x5177]%N) = parseLine furniture_line
  ∧ result (get (build furniture_line) [0x6C99; 0x767C]%N) = None.
Proof. split; vm_compute; reflexivity. Qed.

Example findLongestMatch_at_end :
  result (findLongestMatch (build furniture_line) furniture_text 5) = None
  ∧ result (findLongestMatch (build furniture_line) [] 0) = None.
Proof. split; vm_compute; reflexivity. Qed.

(** ** Queries before the index is ready *)

(** C8. On an instance whose construction has not completed both queries
    return the not-found outcome; [get] writes the condition to the
    console and [findLongestMatch] writes nothing. *)
Theorem queries_before_ready (d : Dictionary) (key text : jsstring) (i : Z) :
  isInitialized d = false →
  get d key = (None, [AccessBeforeInitialized])
  ∧ findLongestMatch d text i = (None, []).
Proof. unfold get, findLongestMatch. by intros ->. Qed.

Lemma queries_before_ready_witness :
  get new_Dictionary (lit "a") = (None, [AccessBeforeInitialized])
  ∧ findLongestMatch new_Dictionary (lit "a") 0 = (None, []).
Proof. apply (queries_before_ready new_Dictionary). reflexivity. Defined.

(** ** [getInstance] *)

Lemma step_fetches p ev :
  (instance p = None → fetches p = 0 ∧ awaiting p = None) →
  (is_Some (instance p) → fetches p = 1) →
  (instance (step p ev) = None →
     fetches (step p ev) = 0 ∧ awaiting (step p ev) = None)
  ∧ (is_Some (instance (step p ev)) → fetches (step p ev) = 1).
Proof.
  destruct p as [inst aw n st out]; simpl. intros Hnone Hsome.
  destruct ev as [caller|o]; simpl.
  - unfold getInstance_call; simpl. destruct inst as [d|]; simpl.
    + split; [done|]. intros _. apply Hsome. by eexists.
    + split; [done|]. intros _. by destruct Hnone as [-> _].
  - unfold getInstance_resume; simpl.
    destruct aw as [caller|]; [|by split].
    destruct inst as [d|]; simpl.
    + split; [done|]. intros _. apply Hsome. by eexists.
    + by destruct Hnone as [_ Hnone].
Qed.

(** The load is started at most once, whatever the calls and
    settlements. *)
Lemma fetch_at_most_once evs : fetches (run_events evs start) ≤ 1.
Proof.
  assert (∀ p,
    (instance p = None → fetches p = 0 ∧ awaiting p = None) →
    (is_Some (instance p) → fetches p = 1) →
    fetches (run_events evs p) ≤ 1) as Hinv.
  { unfold run_events. induction evs as [|ev evs IH]; intros p Hnone Hsome; simpl.
    - destruct (instance p) as [d|] eqn:Hi.
      + rewrite Hsome; [lia|by eexists].
      + destruct Hnone as [-> _]; [done|lia].
    - destruct (step_fetches p ev Hnone Hsome). by apply IH. }
  apply Hinv; [done|]. by intros [? ?].
Qed.

(** C9. A second caller of [getInstance] that arrives while the load of
    the first is in flight is not made to wait for it: its promise is
    resolved at once with the instance, which is not initialized; only
    the first caller receives the instance once it is built. *)
Theorem getInstance_during_load (first second : nat) (key raw : jsstring) :
  awaiting (run_events [Call first; Call second] start) = Some first
  ∧ fetches (run_events [Call first; Call second] start) = 1
  ∧ settled (run_events [Call first; Call second] start)
    = [(second, Resolved new_Dictionary)]
  ∧ isInitialized new_Dictionary = false
  ∧ get new_Dictionary key = (None, [AccessBeforeInitialized])
  ∧ settled (run_events [Call first; Call second; Settle (ResponseText raw)] start)
    = [(second, Resolved new_Dictionary); (first, Resolved (build raw))].
Proof. by split_and!. Qed.

(** After a failed load every event leaves the instance as it is, and a
    call is resolved with it. *)
Lemma run_events_settled d evs : ∀ st n out,
  run_events evs {| instance := Some d; awaiting := None; fetches := n;
                    settled := st; console_out := out |}
  = {| instance := Some d; awaiting := None; fetches := n;
       settled := st ++ omap (late_call d) evs; console_out := out |}.
Proof.
  unfold run_events.
  induction evs as [|[caller|o] evs IH]; intros st n out; simpl.
  - by rewrite app_nil_r.
  - unfold getInstance_call; simpl. rewrite IH. by rewrite <- app_assoc.
  - unfold getInstance_resume; simpl. apply IH.
Qed.

(** C10. A failed initialisation poisons the singleton: when the load of
    the first call fails, that call is rejected with the error, and every
    later call of [getInstance] is resolved with the same instance, never
    initialized, with no further fetch and no further rejection; on that
    instance [get] returns undefined and [findLongestMatch] null. *)
Theorem failed_initialization_poisons (first : nat) (o : fetch_outcome)
    (e : error) (evs : list event) :
  load_failure o = Some e →
  run_events (Call first :: Settle o :: evs) start
  = {| instance := Some new_Dictionary;
       awaiting := None;
       fetches := 1;
       settled := (first, Rejected e) :: omap (late_call new_Dictionary) evs;
       console_out := [InitializationFailed e] |}
  ∧ isInitialized new_Dictionary = false
  ∧ (∀ key, result (get new_Dictionary key) = None)
  ∧ (∀ text i, result (findLongestMatch new_Dictionary text i) = None).
Proof.
  intros Ho. split_and!; [|done..].
  change (run_events (Call first :: Settle o :: evs) start)
    with (run_events evs (step (step start (Call first)) (Settle o))).
  destruct o; simpl in Ho; try discriminate Ho; injection Ho as <-;
    apply (run_events_settled new_Dictionary evs [_] 1 [_]).
Qed.

Lemma failed_initialization_poisons_witness :
  settled (run_events [Call 1; Settle ResponseNotOk; Call 2; Call 3] start)
  = [(1, Rejected FailedToFetchDictionary);
     (2, Resolved new_Dictionary); (3, Resolved new_Dictionary)]
  ∧ fetches (run_events [Call 1; Settle ResponseNotOk; Call 2; Call 3] start) = 1.
Proof.
  destruct (failed_initialization_poisons 1 ResponseNotOk FailedToFetchDictionary
              [Call 2; Call 3] eq_refl) as [-> _].
  split; reflexivity.
Defined.

(** * Further properties *)

(** ** [trim] *)

Lemma trimStart_spaces (pre s : jsstring) :
  Forall (λ c, is_space c = true) pre → trimStart (pre ++ s) = trimStart s.
Proof. induction 1 as [|c pre Hc _ IH]; simpl; [done|]. by rewrite Hc. Qed.

Lemma trimEnd_spaces (s post : jsstring) :
  Forall (λ c, is_space c = true) post → trimEnd (s ++ post) = trimEnd s.
Proof.
  intros Hpost. unfold trimEnd. rewrite reverse_app, trimStart_spaces; [done|].
  by apply Forall_reverse.
Qed.

Lemma trim_spaces_end (s post : jsstring) :
  Forall (λ c, is_space c = true) post → trim (s ++ post) = trim s.
Proof.
  intros Hpost. unfold trim. induction s as [|c s IH]; simpl.
  - rewrite <- (app_nil_r post), trimStart_spaces by done. done.
  - destruct (is_space c); [done|].
    by rewrite app_comm_cons, trimEnd_spaces.
Qed.

Lemma trim_spaces (pre s post : jsstring) :
  Forall (λ c, is_space c = true) pre → Forall (λ c, is_space c = true) post →
  trim (pre ++ s ++ post) = trim s.
Proof.
  intros Hpre Hpost. rewrite <- (trim_spaces_end s post Hpost).
  unfold trim. by rewrite trimStart_spaces.
Qed.

Lemma trim_fixed (c : code_unit) (s : jsstring) (c' : code_unit) :
  is_space c = false → is_space c' = false →
  trim (c :: s ++ [c']) = c :: s ++ [c'].
Proof.
  intros Hc Hc'. unfold trim, trimEnd. simpl. rewrite Hc.
  rewrite app_comm_cons, reverse_app. simpl. rewrite Hc'.
  change (c' :: reverse (c :: s)) with (reverse [c'] ++ reverse (c :: s)).
  by rewrite <- reverse_app, reverse_involutive.
Qed.

(** X1. White space around a line does not count: a line parses as the
    line with any white space and line terminators added before and
    after it, a trailing carriage return among them. *)
Theorem parseLine_surrounding_space (pre line post : jsstring) :
  Forall (λ c, is_space c = true) pre →
  Forall (λ c, is_space c = true) post →
  parseLine (pre ++ line ++ post) = parseLine line.
Proof. intros Hpre Hpost. unfold parseLine. by rewrite trim_spaces. Qed.

Lemma parseLine_surrounding_space_witness :
  parseLine (lit "  " ++ lit "a b [p] /d/" ++ [0x0D%N]) = parseLine (lit "a b [p] /d/").
Proof.
  apply (parseLine_surrounding_space (lit "  ") (lit "a b [p] /d/") [0x0D%N]).
  - repeat constructor.
  - repeat constructor.
Defined.

(** X2. Acceptance: a line whose trimmed form has the entry shape and
    does not begin with [#] gives an entry, and the fields of the entry
    are a reading of the line in that shape. *)
Theorem parseLine_accepts (line : jsstring) :
  entry_shape (trim line) → head (trim line) ≠ Some HASH →
  ∃ e g, parseLine line = Some e
    ∧ entry_fields (trim line) (traditional e) (simplified e) (pinyin e) g
    ∧ definitions e = List.filter non_empty (split SLASH g).
Proof.
  intros (t & s & p & g & Hf) Hh.
  destruct (regex_match_intro _ _ _ _ _ Hf Hh) as [caps Hm].
  destruct (regex_match_inv _ _ Hm) as (_ & t' & s' & p' & g' & -> & Hf').
  unfold parseLine. rewrite Hm. eexists _, g'. by split_and!.
Qed.

Lemma three_runs_shape : entry_shape (trim (lit "a b c [p] /d/")).
Proof.
  exists (lit "a b"), (lit "c"), (lit "p"), (lit "d").
  exists SPACE, SPACE, SPACE. unfold field.
  split_and!; vm_compute; first [reflexivity | discriminate | repeat constructor].
Qed.

(** The line is read as [a b] and [c] here, and parsed as [a] and [b c]. *)
Lemma parseLine_accepts_witness :
  ∃ e g, parseLine (lit "a b c [p] /d/") = Some e
    ∧ entry_fields (trim (lit "a b c [p] /d/"))
        (traditional e) (simplified e) (pinyin e) g
    ∧ definitions e = List.filter non_empty (split SLASH g).
Proof.
  apply (parseLine_accepts (lit "a b c [p] /d/")).
  - apply three_runs_shape.
  - vm_compute. discriminate.
Defined.

(** ** Lines that read in one way only *)

Lemma run_char_fail cls r idx c s :
  cls c = false → run (AChar cls :: r) idx (c :: s) = None.
Proof. simpl. by intros ->. Qed.

(** The lazy group takes [g] when the rest of the pattern matches after
    [g] and after no shorter prefix of it. *)
Lemma lazy_plus_exact cls k (g : jsstring) : ∀ acc idx s' caps,
  g ≠ [] → Forall (λ c, cls c = true) g →
  (∀ g1 g2, g = g1 ++ g2 → g1 ≠ [] → g2 ≠ [] →
            k (idx + length g1) (g2 ++ s') = None) →
  k (idx + length g) s' = Some caps →
  lazy_plus cls k acc idx (g ++ s') = Some ((acc ++ g) :: caps).
Proof.
  induction g as [|c g IH]; intros acc idx s' caps Hne Hall Hshort Hk; [done|].
  inversion_clear Hall as [|? ? Hc Hg]. simpl. rewrite Hc.
  destruct g as [|c' g'].
  - simpl in *. replace (idx + 1) with (S idx) in Hk by lia. by rewrite Hk.
  - assert (k (S idx) ((c' :: g') ++ s') = None) as Hk1.
    { replace (S idx) with (idx + length [c]) by (simpl; lia).
      by apply Hshort. }
    rewrite Hk1.
    rewrite (IH (acc ++ [c]) (S idx) s' caps); [|done|done| |].
    + by rewrite <- app_assoc.
    + intros g1 g2 Hg12 Hg1 Hg2.
      replace (S idx + length g1) with (idx + length (c :: g1)) by (simpl; lia).
      apply Hshort; [|done|done]. simpl. by rewrite Hg12.
    + by replace (S idx + length (c' :: g')) with (idx + length (c :: c' :: g'))
        by (simpl; lia).
Qed.

(** A group whose units are outside the class [stop], before a unit of
    [stop]: the group is captured whole. *)
Lemma run_group_until cls stop r idx (g : jsstring) w s' caps :
  g ≠ [] → Forall (λ c, cls c = true) g → free_of stop g →
  run (AChar stop :: r) (idx + length g) (w :: s') = Some caps →
  run (AGroup cls :: AChar stop :: r) idx (g ++ w :: s') = Some (g :: caps).
Proof.
  intros Hne Hall Hfree Hk. simpl run at 1.
  apply (lazy_plus_exact cls _ g [] idx (w :: s') caps); [done..| |done].
  intros g1 g2 -> Hg1 Hg2. destruct g2 as [|c g2]; [done|].
  apply run_char_fail.
  apply Forall_app in Hfree as [_ Hfree]. by inversion Hfree.
Qed.

(** The last group, before the closing [/] and the end of the line. *)
Lemma run_gloss_group idx (g : jsstring) :
  field g →
  run [AGroup is_dot; AChar (is_unit SLASH); AEol] idx (g ++ [SLASH]) = Some [g].
Proof.
  intros [Hne Hall]. simpl run at 1.
  apply (lazy_plus_exact is_dot _ g [] idx [SLASH] []); [done..| |done].
  intros g1 g2 -> Hg1 Hg2. destruct g2 as [|c g2]; [done|]. simpl.
  destruct (is_unit SLASH c); [|done]. by destruct g2.
Qed.

Lemma regex_match_exact (line t s p g : jsstring) :
  entry_fields line t s p g →
  free_of is_space t → head t ≠ Some HASH →
  free_of is_space s → free_of (is_unit RBRACKET) p →
  str_match regex line = Some [t; s; p; g].
Proof.
  intros (w1 & w2 & w3 & -> & Hw1 & Hw2 & Hw3 & [Ht Htd] & [Hs Hsd]
          & [Hp Hpd] & Hg) Htf Hhash Hsf Hpf.
  unfold regex. rewrite str_match_anchored.
  assert (∀ l caps, run (tail (tail regex)) 0 (t ++ l) = Some caps →
                    run (tail regex) 0 (t ++ l) = Some caps) as Hlook.
  { intros l caps Hr. destruct t as [|c t]; [done|]. simpl in *.
    unfold is_unit. destruct (N.eqb_spec c HASH) as [->|]; [done|done]. }
  apply Hlook. unfold regex; simpl tail.
  apply run_group_until; [done..|]. rewrite run_char_intro by done.
  apply run_group_until; [done..|]. rewrite run_char_intro by done.
  rewrite run_char_intro by apply N.eqb_refl.
  apply run_group_until; [done..|].
  rewrite run_char_intro by apply N.eqb_refl.
  rewrite run_char_intro by done.
  rewrite run_char_intro by apply N.eqb_refl.
  by apply run_gloss_group.
Qed.

(** X3. A line in the entry shape whose headwords hold no white space,
    whose traditional headword does not begin with [#] and whose
    pronunciation holds no [']'] is read in that way and no other: the
    entry has exactly these fields. *)
Theorem parseLine_exact (line t s p g : jsstring) :
  entry_fields (trim line) t s p g →
  free_of is_space t → head t ≠ Some HASH →
  free_of is_space s → free_of (is_unit RBRACKET) p →
  parseLine line
  = Some {| traditional := t; simplified := s; pinyin := p;
            definitions := List.filter non_empty (split SLASH g) |}.
Proof.
  intros Hf Ht Hh Hs Hp. unfold parseLine.
  by rewrite (regex_match_exact _ _ _ _ _ Hf Ht Hh Hs Hp).
Qed.

Lemma furniture_fields :
  entry_fields (trim furniture_line) [0x50A2; 0x4FF1]%N [0x5BB6; 0x5177]%N
    (lit "jia1 ju4") (lit "furniture").
Proof.
  exists SPACE, SPACE, SPACE. unfold field.
  split_and!; vm_compute; first [reflexivity | discriminate | repeat constructor].
Qed.

Lemma parseLine_exact_witness :
  parseLine furniture_line
  = Some {| traditional := [0x50A2; 0x4FF1]%N; simplified := [0x5BB6; 0x5177]%N;
            pinyin := lit "jia1 ju4";
            definitions := List.filter non_empty (split SLASH (lit "furniture")) |}.
Proof.
  apply (parseLine_exact furniture_line _ _ _ _ furniture_fields).
  - vm_compute. repeat constructor.
  - vm_compute. discriminate.
  - vm_compute. repeat constructor.
  - vm_compute. repeat constructor.
Defined.

(** ** Reading an entry back from its line *)

Lemma split_free sep (x : jsstring) :
  free_of (is_unit sep) x → split sep x = [x].
Proof.
  induction 1 as [|c x Hc _ IH]; simpl; [done|].
  unfold is_unit in Hc. by rewrite Hc, IH.
Qed.

Lemma split_app_sep sep (x rest : jsstring) :
  free_of (is_unit sep) x → split sep (x ++ sep :: rest) = x :: split sep rest.
Proof.
  induction 1 as [|c x Hc _ IH]; simpl.
  - by rewrite N.eqb_refl.
  - unfold is_unit in Hc. by rewrite Hc, IH.
Qed.

Lemma split_join sep (pieces : list jsstring) :
  pieces ≠ [] → Forall (free_of (is_unit sep)) pieces →
  split sep (join sep pieces) = pieces.
Proof.
  induction pieces as [|x pieces IH]; intros Hne Hall; [done|].
  inversion_clear Hall as [|? ? Hx Hrest].
  destruct pieces as [|y pieces]; simpl.
  - by apply split_free.
  - rewrite split_app_sep by done. f_equal. by apply IH.
Qed.

Lemma filter_non_empty_id (pieces : list jsstring) :
  Forall (λ x, x ≠ []) pieces → List.filter non_empty pieces = pieces.
Proof.
  induction 1 as [|x pieces Hx _ IH]; simpl; [done|].
  destruct x; [done|]. simpl. by rewrite IH.
Qed.

Lemma join_field (pieces : list jsstring) :
  pieces ≠ [] → Forall field pieces → field (join SLASH pieces).
Proof.
  induction pieces as [|x pieces IH]; intros Hne Hall; [done|].
  inversion_clear Hall as [|? ? [Hx Hxd] Hrest].
  destruct pieces as [|y pieces]; [done|].
  destruct (IH ltac:(done) Hrest) as [_ Hd].
  split.
  - simpl. by destruct x.
  - change (join SLASH (x :: y :: pieces))
      with (x ++ SLASH :: join SLASH (y :: pieces)).
    apply Forall_app. split; [done|]. by constructor.
Qed.

(** X4. Round trip: for a clean entry (non-empty headwords without
    white space, the traditional one not beginning with [#], a non-empty
    pronunciation without [']'], at least one gloss, every gloss
    non-empty and without [/], no line terminator in any field) the line
    written with single spaces and the glosses between slashes parses
    back to the entry. *)
Theorem parseLine_entry_line (e : DictionaryEntry) :
  clean_entry e → parseLine (entry_line e) = Some e.
Proof.
  intros (Ht & Htf & Hh & Hs & Hsf & Hp & Hpf & Hne & Hdefs).
  assert (Forall field (definitions e)) as Hfields
    by (eapply Forall_impl; [exact Hdefs|]; by intros ? [? ?]).
  assert (Forall (free_of (is_unit SLASH)) (definitions e)) as Hfree
    by (eapply Forall_impl; [exact Hdefs|]; by intros ? [? ?]).
  assert (trim (entry_line e) = entry_line e) as Htrim.
  { unfold entry_line. destruct Ht as [Hne' _].
    destruct (traditional e) as [|c t] eqn:Heq; [done|].
    inversion_clear Htf as [|? ? Hc _].
    transitivity (trim (c :: (t ++ SPACE :: simplified e ++ SPACE :: LBRACKET
                    :: pinyin e ++ RBRACKET :: SPACE :: SLASH
                    :: join SLASH (definitions e)) ++ [SLASH])).
    { f_equal. simpl. f_equal. repeat (rewrite <- ?app_assoc; simpl). done. }
    rewrite trim_fixed by done.
    simpl. f_equal. repeat (rewrite <- ?app_assoc; simpl). done. }
  unfold parseLine.
  rewrite (regex_match_exact (trim (entry_line e)) (traditional e)
             (simplified e) (pinyin e) (join SLASH (definitions e)));
    try done.
  - rewrite split_join by done. rewrite filter_non_empty_id.
    + by destruct e.
    + eapply Forall_impl; [exact Hfields|]. by intros ? [? _].
  - rewrite Htrim. exists SPACE, SPACE, SPACE.
    split_and!; try done. by apply join_field.
Qed.

Lemma parseLine_entry_line_witness :
  parseLine (entry_line {| traditional := [0x50A2; 0x4FF1]%N;
                           simplified := [0x5BB6; 0x5177]%N;
                           pinyin := lit "jia1 ju4";
                           definitions := [lit "furniture"; lit "fittings"] |})
  = Some {| traditional := [0x50A2; 0x4FF1]%N;
            simplified := [0x5BB6; 0x5177]%N;
            pinyin := lit "jia1 ju4";
            definitions := [lit "furniture"; lit "fittings"] |}.
Proof.
  apply parseLine_entry_line. unfold clean_entry, field, free_of.
  split_and!; vm_compute; first [discriminate | repeat constructor; discriminate].
Defined.

(** ** The fields of a parsed entry *)

(** X5. The fields of a parsed entry: no field holds a line terminator,
    the headwords and the pronunciation are non-empty, the traditional
    headword does not begin with [#], and every definition is non-empty
    and holds no [/]. *)
Theorem parseLine_fields (line : jsstring) (e : DictionaryEntry) :
  parseLine line = Some e →
  field (traditional e) ∧ head (traditional e) ≠ Some HASH
  ∧ field (simplified e) ∧ field (pinyin e)
  ∧ Forall (λ def, field def ∧ free_of (is_unit SLASH) def) (definitions e).
Proof.
  intros (g & _ & Hd & Hf & Hh)%parseLine_Some_inv.
  destruct Hf as (w1 & w2 & w3 & Hline & _ & _ & _ & Ht & Hs & Hp & [_ Hg]).
  split_and!; try done.
  - destruct Ht as [Hne _]. rewrite Hline in Hh.
    by destruct (traditional e).
  - rewrite Hd. apply Forall_forall. intros def Hin%list_elem_of_In.
    apply filter_In in Hin as [Hin%list_elem_of_In Hne].
    pose proof (split_pieces SLASH g) as Hpieces.
    rewrite Forall_forall in Hpieces.
    destruct (Hpieces def Hin) as [Hfree Hsub].
    split; [split|done]; [by destruct def|].
    apply Forall_forall. intros c Hc%Hsub.
    rewrite Forall_forall in Hg. by apply Hg.
Qed.

Lemma parseLine_fields_witness :
  Forall (λ def, field def ∧ free_of (is_unit SLASH) def)
         [lit "d"; lit "e"; lit "f"].
Proof.
  apply (parseLine_fields (lit "  a b c [p q] /d/e//f/  ")
           {| traditional := lit "a"; simplified := lit "b c";
              pinyin := lit "p q"; definitions := [lit "d"; lit "e"; lit "f"] |}).
  reflexivity.
Defined.

(** ** Looking up a built index *)

Lemma load_line_keeps m line k :
  is_Some (m !! k) →
  ∃ e, load_line m line !! k = Some e.
Proof.
  intros [e0 He0]. unfold load_line.
  destruct (parseLine line) as [e|]; [|by exists e0].
  destruct (decide (simplified e = k)) as [<-|Hs].
  { exists e. apply lookup_insert_eq. }
  rewrite lookup_insert_ne by done.
  destruct (decide (traditional e = k)) as [<-|Ht].
  { exists e. apply lookup_insert_eq. }
  rewrite lookup_insert_ne by done. by exists e0.
Qed.

Lemma load_lines_keeps lines : ∀ m k,
  is_Some (m !! k) → is_Some (load_lines lines m !! k).
Proof.
  unfold load_lines.
  induction lines as [|line lines IH]; intros m k Hk; simpl; [done|].
  apply IH. destruct (load_line_keeps m line k Hk) as [e He]. by exists e.
Qed.

Lemma load_lines_headword lines : ∀ m line e k,
  line ∈ lines → parseLine line = Some e → headword k e →
  is_Some (load_lines lines m !! k).
Proof.
  induction lines as [|l lines IH]; intros m line e k Hin Hp Hk.
  { by apply elem_of_nil in Hin. }
  apply elem_of_cons in Hin as [<-|Hin].
  - change (load_lines (line :: lines) m)
      with (load_lines lines (load_line m line)).
    apply load_lines_keeps. exists e. by apply load_line_headword.
  - change (load_lines (l :: lines) m) with (load_lines lines (load_line m l)).
    by eapply IH.
Qed.

(** X6. What [get] finds on a built index: an entry is returned for a
    key exactly when some line of the source parses to an entry with
    that key as a headword; the entry returned is that of such a line,
    and nothing is written to the console. *)
Theorem get_build (raw key : jsstring) :
  (is_Some (result (get (build raw) key))
   ↔ ∃ line e, line ∈ split NEWLINE raw ∧ parseLine line = Some e
               ∧ headword key e)
  ∧ (∀ e, result (get (build raw) key) = Some e →
          ∃ line, line ∈ split NEWLINE raw ∧ parseLine line = Some e
                  ∧ headword key e)
  ∧ console (get (build raw) key) = [].
Proof.
  change (result (get (build raw) key))
    with (load_lines (split NEWLINE raw) ∅ !! key).
  assert (∀ e, load_lines (split NEWLINE raw) ∅ !! key = Some e →
          ∃ line, line ∈ split NEWLINE raw ∧ parseLine line = Some e
                  ∧ headword key e) as Hsound.
  { intros e [He|H]%load_lines_lookup_inv; [|done].
    rewrite lookup_empty in He. discriminate He. }
  split_and!; [|done|done]. split.
  - intros [e (line & H)%Hsound]. by exists line, e.
  - intros (line & e & Hin & Hp & Hk). by eapply load_lines_headword.
Qed.

(** ** Sources one after the other *)

Lemma split_app sep (a b : jsstring) :
  split sep (a ++ sep :: b) = split sep a ++ split sep b.
Proof.
  induction a as [|c a IH]; simpl.
  - by rewrite N.eqb_refl.
  - rewrite IH. destruct (c =? sep)%N; [done|].
    pose proof (split_non_empty sep a). by destruct (split sep a).
Qed.

Lemma load_lines_union lines : ∀ m0 m,
  load_lines lines (m0 ∪ m) = load_lines lines m0 ∪ m.
Proof.
  unfold load_lines.
  induction lines as [|line lines IH]; intros m0 m; simpl; [done|].
  rewrite <- IH. f_equal. unfold load_line.
  destruct (parseLine line) as [e|]; [|done].
  by rewrite <- !insert_union_l.
Qed.

Lemma longest_key_is_max (m : gmap jsstring DictionaryEntry) :
  is_max_key_length length m (longest_key m).
Proof.
  split_and!.
  - intros k. apply longest_key_bound.
  - intros Hne. unfold longest_key.
    destruct (foldl_longest (keys m) 0) as (_ & Hall & [H0|(k & Hk & Hlen)]).
    + destruct (map_choose m Hne) as (k & v & Hkv).
      assert (k ∈ dom m) as Hk by (apply elem_of_dom; by exists v).
      exists k. split; [done|].
      pose proof (Hall k (proj2 (keys_elem_of m k) Hk)). lia.
    + exists k. split; [by apply keys_elem_of|done].
  - intros ->. reflexivity.
Qed.

Lemma longest_key_union (m1 m2 : gmap jsstring DictionaryEntry) :
  longest_key (m1 ∪ m2) = longest_key m1 `max` longest_key m2.
Proof.
  destruct (longest_key_is_max (m1 ∪ m2)) as (Hle & Hex & Hempty).
  destruct (longest_key_is_max m1) as (Hle1 & Hex1 & Hempty1).
  destruct (longest_key_is_max m2) as (Hle2 & Hex2 & Hempty2).
  apply Nat.le_antisymm.
  - destruct (decide (m1 ∪ m2 = ∅)) as [Heq|Hne]; [rewrite Hempty by done; lia|].
    destruct (Hex Hne) as (k & Hk & <-).
    rewrite dom_union_L in Hk. apply elem_of_union in Hk as [Hk|Hk].
    + pose proof (Hle1 k Hk). lia.
    + pose proof (Hle2 k Hk). lia.
  - apply Nat.max_lub.
    + destruct (decide (m1 = ∅)) as [Heq|Hne]; [rewrite Hempty1 by done; lia|].
      destruct (Hex1 Hne) as (k & Hk & <-). apply Hle.
      rewrite dom_union_L. apply elem_of_union. by left.
    + destruct (decide (m2 = ∅)) as [Heq|Hne]; [rewrite Hempty2 by done; lia|].
      destruct (Hex2 Hne) as (k & Hk & <-). apply Hle.
      rewrite dom_union_L. apply elem_of_union. by right.
Qed.

(** X7. Two sources joined by a newline: the index holds the entries of
    both, the second source winning on a common key, and its
    [maxKeyLength] is the larger of the two. *)
Theorem build_concat (a b : jsstring) :
  entries (build (a ++ NEWLINE :: b)) = entries (build b) ∪ entries (build a)
  ∧ maxKeyLength (build (a ++ NEWLINE :: b))
    = maxKeyLength (build a) `max` maxKeyLength (build b).
Proof.
  assert (entries (build (a ++ NEWLINE :: b))
          = entries (build b) ∪ entries (build a)) as Hentries.
  { rewrite !entries_build, split_app, load_lines_app.
    rewrite <- (left_id_L ∅ (∪) (load_lines (split NEWLINE a) ∅)) at 1.
    apply load_lines_union. }
  split; [done|].
  change (maxKeyLength (build (a ++ NEWLINE :: b)))
    with (longest_key (entries (build (a ++ NEWLINE :: b)))).
  rewrite Hentries, longest_key_union. apply Nat.max_comm.
Qed.

(** X8. A source none of whose lines parses gives an empty index:
    [maxKeyLength] is 0 and both queries find nothing, silently. *)
Theorem build_nothing (raw : jsstring) :
  (∀ line, line ∈ split NEWLINE raw → parseLine line = None) →
  entries (build raw) = ∅
  ∧ maxKeyLength (build raw) = 0
  ∧ (∀ key, get (build raw) key = (None, []))
  ∧ (∀ text i, findLongestMatch (build raw) text i = (None, [])).
Proof.
  intros Hnone.
  assert (entries (build raw) = ∅) as Hempty.
  { apply map_empty. intros k. rewrite entries_build.
    rewrite load_lines_other; [apply lookup_empty|].
    intros line e Hin Hp. rewrite (Hnone line Hin) in Hp. discriminate Hp. }
  assert (maxKeyLength (build raw) = 0) as Hmax.
  { change (maxKeyLength (build raw)) with (longest_key (entries (build raw))).
    by rewrite Hempty. }
  split_and!; [done|done| |].
  - intros key.
    change (get (build raw) key)
      with (entries (build raw) !! key, @nil console_msg).
    by rewrite Hempty, lookup_empty.
  - intros text i.
    change (findLongestMatch (build raw) text i)
      with (longest_from (entries (build raw)) text i (maxKeyLength (build raw)),
            @nil console_msg).
    by rewrite Hmax.
Qed.

Lemma build_nothing_witness :
  entries (build (lit "#!comment" ++ NEWLINE :: lit "no entry here")) = ∅.
Proof.
  apply (build_nothing (lit "#!comment" ++ NEWLINE :: lit "no entry here")).
  intros line Hin.
  change (split NEWLINE (lit "#!comment" ++ NEWLINE :: lit "no entry here"))
    with [lit "#!comment"; lit "no entry here"] in Hin.
  apply elem_of_cons in Hin as [->|Hin]; [reflexivity|].
  apply list_elem_of_singleton in Hin as ->. reflexivity.
Defined.

(** ** What [findLongestMatch] returns *)

(** X9. Whatever the state of the dictionary, a word returned for a
    start index inside the text is a key of the map, between 1 and
    [maxKeyLength] units long, and is the text at that index; [get]
    finds its entry and writes nothing. *)
Theorem findLongestMatch_found (d : Dictionary) (text : jsstring) (i : nat)
    (w : jsstring) :
  result (findLongestMatch d text (Z.of_nat i)) = Some w →
  isInitialized d = true
  ∧ 1 ≤ length w ≤ maxKeyLength d
  ∧ i + length w ≤ length text
  ∧ w = take (length w) (drop i text)
  ∧ ∃ e, get d w = (Some e, []).
Proof.
  unfold findLongestMatch, get.
  destruct (isInitialized d); simpl; [|done].
  intros (L & HL & Hin & Hsub & [e He]%elem_of_dom & _)%longest_from_Some.
  assert (length w = L) as Hlen by (subst w; apply substring_length; lia).
  rewrite Hlen. split_and!; [done|lia|lia|lia| |by exists e; rewrite He].
  rewrite Hsub at 1. rewrite substring_in_bounds by lia. by rewrite Nat2Z.id.
Qed.

Lemma findLongestMatch_found_witness :
  ∃ e, get (build furniture_line) [0x5BB6; 0x5177]%N = (Some e, []).
Proof.
  apply (findLongestMatch_found (build furniture_line) furniture_text 3).
  vm_compute. reflexivity.
Defined.

(** X10. At the end of the text and beyond it nothing is found, whatever
    the dictionary. *)
Theorem findLongestMatch_past_end (d : Dictionary) (text : jsstring) (i : Z) :
  (Z.of_nat (length text) ≤ i)%Z →
  findLongestMatch d text i = (None, []).
Proof.
  intros Hi. unfold findLongestMatch. destruct (isInitialized d); simpl; [|done].
  unfold ret. f_equal.
  induction (maxKeyLength d) as [|n IH]; [done|].
  cbn [longest_from]. rewrite bool_decide_eq_false_2 by lia. done.
Qed.

Lemma findLongestMatch_past_end_witness :
  findLongestMatch (build furniture_line) furniture_text 5 = (None, []).
Proof.
  apply (findLongestMatch_past_end (build furniture_line) furniture_text 5).
  vm_compute. discriminate.
Defined.

Lemma longest_from_drop m (text : jsstring) (i : nat) n :
  i ≤ length text →
  longest_from m text (Z.of_nat i) n = longest_from m (drop i text) 0 n.
Proof.
  intros Hi. induction n as [|n IH]; [done|].
  cbn [longest_from]. rewrite IH, length_drop.
  destruct (decide (i + S n ≤ length text)) as [Hin|Hout].
  - rewrite (bool_decide_eq_true_2 (Z.of_nat i + _ ≤ _)%Z) by lia.
    rewrite (bool_decide_eq_true_2 (0 + _ ≤ _)%Z) by lia.
    rewrite (substring_in_bounds text) by lia.
    rewrite (substring_in_bounds (drop i text)) by (rewrite ?length_drop; lia).
    by rewrite Nat2Z.id.
  - rewrite (bool_decide_eq_false_2 (Z.of_nat i + _ ≤ _)%Z) by lia.
    by rewrite (bool_decide_eq_false_2 (0 + _ ≤ _)%Z) by lia.
Qed.

(** X11. A search at an index inside the text is the search at index 0
    of the rest of the text from that index. *)
Theorem findLongestMatch_suffix (d : Dictionary) (text : jsstring) (i : nat) :
  i ≤ length text →
  findLongestMatch d text (Z.of_nat i) = findLongestMatch d (drop i text) 0.
Proof.
  intros Hi. unfold findLongestMatch. destruct (isInitialized d); simpl; [|done].
  by rewrite longest_from_drop.
Qed.

Lemma findLongestMatch_suffix_witness :
  findLongestMatch (build furniture_line) furniture_text 3
  = findLongestMatch (build furniture_line) [0x5BB6; 0x5177]%N 0.
Proof.
  apply (findLongestMatch_suffix (build furniture_line) furniture_text 3).
  vm_compute. lia.
Defined.

(** ** Greedy segments *)

Section recorded.
Context (d : Dictionary) (text : jsstring).

Lemma segment_loop_recorded fuel : ∀ i acc segs,
  segment_loop fuel d text i acc = Some segs →
  Forall (recorded d text) acc → Forall (recorded d text) segs.
Proof.
  induction fuel as [|fuel IH]; intros i acc segs; simpl.
  { case_decide; [done|]. by intros [= <-]. }
  case_decide; [|by intros [= <-]].
  destruct (result (findLongestMatch d text (Z.of_nat i)))
    as [[|c found]|] eqn:Hfind; intros Hrun Hacc;
    apply (IH _ _ _ Hrun); apply Forall_app; (split; [done|]);
    constructor; try done; unfold recorded; simpl; by rewrite Hfind.
Qed.

Lemma InteractiveText_recorded segs :
  InteractiveText_segments d text = Some segs → Forall (recorded d text) segs.
Proof. intros Hrun. by apply (segment_loop_recorded _ _ _ _ Hrun). Qed.

(** Without a match anywhere the loop emits one segment per unit. *)
Lemma segment_loop_units fuel :
  (∀ j, result (findLongestMatch d text (Z.of_nat j)) = None) →
  ∀ i acc, i ≤ length text → length text - i ≤ fuel →
  segment_loop fuel d text i acc
  = Some (acc ++ imap (λ j, unit_segment (i + j)) (drop i text)).
Proof.
  intros Hnone. induction fuel as [|fuel IH]; intros i acc Hi Hfuel.
  { rewrite segment_loop_done, drop_ge by lia. simpl. by rewrite app_nil_r. }
  destruct (decide (i < length text)) as [Hlt|Hge]; cycle 1.
  { rewrite segment_loop_done, drop_ge by lia. simpl. by rewrite app_nil_r. }
  destruct (unit_at_lookup text i Hlt) as (u & Hu & Hunit & _).
  simpl. rewrite decide_True by done. rewrite Hnone, Hunit.
  rewrite IH by lia. rewrite <- app_assoc. f_equal. f_equal.
  rewrite (drop_S _ _ _ Hu). simpl.
  unfold unit_segment at 2. rewrite Nat.add_0_r. f_equal.
  replace (i + 1) with (S i) by lia.
  apply imap_ext. intros j x _. simpl. f_equal. lia.
Qed.
End recorded.

(** X12. The segmentation is greedy: on a built index every matched
    segment is the longest key occurring at its start, and at the start
    of every unmatched segment no key occurs. *)
Theorem segmentation_greedy (raw text : jsstring) :
  ∃ segs, InteractiveText_segments (build raw) text = Some segs
    ∧ Forall (greedy_segment (build raw) text) segs.
Proof.
  destruct (segment_loop_spec (build raw) text (length text) 0 [])
    as (segs & Hrun & _); [lia..|].
  exists segs. split; [done|].
  eapply Forall_impl; [by apply InteractiveText_recorded|].
  intros sg. unfold recorded, greedy_segment.
  rewrite findLongestMatch_build.
  destruct (longest_from (entries (build raw)) text (Z.of_nat (startIndex sg))
              (maxKeyLength (build raw))) as [found|] eqn:Hscan.
  - apply longest_from_Some in Hscan as (L & HL & Hin & Hsub & Hdom & Hlonger).
    assert (length found = L) as HfL
      by (subst found; apply substring_length; lia).
    destruct found as [|c m]; [simpl in HfL; lia|].
    intros [-> ->]. split.
    + unfold matches_at. rewrite HfL. done.
    + intros key Hkey.
      pose proof (matches_at_length _ _ _ _ (Nat2Z.is_nonneg _) Hkey) as Hk.
      destruct Hkey as (Hkdom & Hkin & Hksub).
      destruct (decide (length key ≤ length (c :: m))) as [|Hgt]; [done|].
      exfalso. apply (Hlonger (length key)); [lia|done|]. by rewrite <- Hksub.
  - intros ->. intros key Hkey.
    pose proof (matches_at_length _ _ _ _ (Nat2Z.is_nonneg _) Hkey) as Hk.
    destruct Hkey as (Hkdom & Hkin & Hksub).
    apply (longest_from_None _ _ _ _ Hscan (length key) Hk Hkin).
    by rewrite <- Hksub.
Qed.

(** X13. With a dictionary that is not initialized, or whose
    [maxKeyLength] is 0, the text is cut into one unmatched segment per
    code unit: a character outside the Basic Multilingual Plane gives
    two. *)
Theorem segmentation_without_words (d : Dictionary) (text : jsstring) :
  isInitialized d = false ∨ maxKeyLength d = 0 →
  InteractiveText_segments d text = Some (imap unit_segment text).
Proof.
  intros Hd. unfold InteractiveText_segments.
  rewrite segment_loop_units; [by rewrite drop_0| |lia|lia].
  intros j. unfold findLongestMatch.
  destruct Hd as [-> | Hmax]; [done|].
  destruct (isInitialized d); [|done]. simpl. by rewrite Hmax.
Qed.

Lemma segmentation_without_words_witness :
  InteractiveText_segments new_Dictionary astral_text
  = Some [unit_segment 0 0xD840%N; unit_segment 1 0xDC00%N; unit_segment 2 0x61%N].
Proof.
  apply (segmentation_without_words new_Dictionary astral_text).
  left. reflexivity.
Defined.

(** ** The handlers *)

Lemma tiles_start_ge text : ∀ segs from sg,
  tiles text from segs → sg ∈ segs → from ≤ startIndex sg.
Proof.
  induction segs as [|s0 segs IH]; intros from sg Htiles Hin.
  { by apply elem_of_nil in Hin. }
  destruct Htiles as (Hstart & _ & _ & _ & Hrest).
  apply elem_of_cons in Hin as [->|Hin]; [lia|].
  pose proof (IH _ _ Hrest Hin). lia.
Qed.

Lemma tiles_start_inj text : ∀ segs from sg sg',
  tiles text from segs → sg ∈ segs → sg' ∈ segs →
  startIndex sg = startIndex sg' → sg = sg'.
Proof.
  induction segs as [|s0 segs IH]; intros from sg sg' Htiles Hin Hin' Heq.
  { by apply elem_of_nil in Hin. }
  destruct Htiles as (Hstart & Hne & _ & _ & Hrest).
  assert (0 < length (content s0)) as Hpos
    by (destruct (content s0); [done|simpl; lia]).
  apply elem_of_cons in Hin as [->|Hin];
    apply elem_of_cons in Hin' as [->|Hin']; [done| | |by eapply IH].
  - pose proof (tiles_start_ge _ _ _ _ Hrest Hin'). lia.
  - pose proof (tiles_start_ge _ _ _ _ Hrest Hin). lia.
Qed.

(** X16. Looking up the hovered word: after the pointer enters a matched
    segment of a text segmented with a built index, pressing [d] selects
    an entry that has the word of the segment as a headword, and nothing
    is written to the console. *)
Theorem hovered_word_is_found (raw text : jsstring) (segs : list segment)
    (sg : segment) (localPIndex : Z) (selected : option DictionaryEntry) :
  InteractiveText_segments (build raw) text = Some segs →
  sg ∈ segs → isMatch sg = true →
  ∃ e, handleKeyDown (lit "d")
         (handleMouseEnter (content sg) (startIndex sg) localPIndex)
         (Some (build raw)) selected = (Some e, [])
       ∧ headword (content sg) e.
Proof.
  intros Hrun Hin Hmatch.
  pose proof (InteractiveText_recorded _ _ _ Hrun) as Hrec.
  rewrite Forall_forall in Hrec. specialize (Hrec sg Hin).
  unfold recorded in Hrec. rewrite findLongestMatch_build in Hrec.
  destruct (longest_from (entries (build raw)) text (Z.of_nat (startIndex sg))
              (maxKeyLength (build raw))) as [[|c m]|] eqn:Hscan;
    [congruence| |congruence].
  destruct Hrec as [_ Hcontent].
  apply longest_from_Some in Hscan as (_ & _ & _ & _ & [e He]%elem_of_dom & _).
  exists e. rewrite Hcontent. split.
  - unfold handleKeyDown, handleMouseEnter. rewrite decide_True by done.
    simpl. change (get (build raw) (c :: m))
      with (entries (build raw) !! (c :: m), @nil console_msg).
    by rewrite He.
  - rewrite entries_build in He.
    apply load_lines_lookup_inv in He as [He|(line & _ & _ & Hhw)]; [|done].
    rewrite lookup_empty in He. discriminate He.
Qed.

Lemma hovered_word_is_found_witness :
  ∃ e, handleKeyDown (lit "d") (handleMouseEnter [0x5BB6; 0x5177]%N 3 0)
         (Some (build furniture_line)) None = (Some e, [])
       ∧ headword [0x5BB6; 0x5177]%N e.
Proof.
  apply (hovered_word_is_found furniture_line furniture_text _
           {| content := [0x5BB6; 0x5177]%N; isMatch := true; startIndex := 3 |}
           0 None (eq_refl (InteractiveText_segments (build furniture_line)
                                                     furniture_text))).
  - vm_compute. repeat constructor.
  - reflexivity.
Defined.

(** X17. The highlight marks the hovered segment and no other: among
    the segments of one text, in the paragraph of the hover, the test is
    true exactly for the segment the pointer entered. *)
Theorem highlight_is_hovered (d : Dictionary) (text : jsstring)
    (segs : list segment) (sg sg' : segment) (localPIndex : Z) :
  InteractiveText_segments d text = Some segs →
  sg ∈ segs → sg' ∈ segs →
  isHighlighted (handleMouseEnter (content sg) (startIndex sg) localPIndex)
                localPIndex sg' = true
  ↔ sg' = sg.
Proof.
  intros Hrun Hin Hin'.
  destruct (segment_loop_spec d text (length text) 0 [])
    as (segs' & Hrun' & Htiles & _); [lia..|].
  unfold InteractiveText_segments in Hrun. rewrite Hrun in Hrun'.
  injection Hrun' as ->. simpl. split.
  - intros [[_ Hstart%bool_decide_eq_true]%andb_true_iff _]%andb_true_iff.
    symmetry. by eapply tiles_start_inj.
  - intros ->. by rewrite !bool_decide_eq_true_2.
Qed.

Lemma highlight_is_hovered_witness :
  isHighlighted (handleMouseEnter [0x5BB6; 0x5177]%N 3 0) 0
    {| content := [0x5BB6; 0x5177]%N; isMatch := true; startIndex := 3 |} = true.
Proof.
  assert ({| content := [0x5BB6; 0x5177]%N; isMatch := true; startIndex := 3 |}
          ∈ [unit_segment 0 0x4ED6%N; unit_segment 1 0x8CB7%N;
             unit_segment 2 0x4E86%N;
             {| content := [0x5BB6; 0x5177]%N; isMatch := true;
                startIndex := 3 |}]) as Hin
    by (do 3 right; left).
  apply (highlight_is_hovered (build furniture_line) furniture_text _ _ _ 0
           (eq_refl (InteractiveText_segments (build furniture_line)
                                              furniture_text)) Hin Hin).
  reflexivity.
Defined.

(** ** Every trace of [getInstance] *)

Lemma run_events_calls d during : ∀ a n st out,
  run_events (Call <$> during)
    {| instance := Some d; awaiting := a; fetches := n;
       settled := st; console_out := out |}
  = {| instance := Some d; awaiting := a; fetches := n;
       settled := st ++ ((λ c, (c, Resolved d)) <$> during);
       console_out := out |}.
Proof.
  unfold run_events.
  induction during as [|c during IH]; intros a n st out; simpl.
  - by rewrite app_nil_r.
  - unfold getInstance_call; simpl. rewrite IH. by rewrite <- app_assoc.
Qed.

Lemma run_events_app evs evs' p :
  run_events (evs ++ evs') p = run_events evs' (run_events evs p).
Proof. apply foldl_app. Qed.

(** X14. The whole course of [getInstance]: after a first call, the
    calls made while the load is pending are each resolved at once with
    the instance as [new Dictionary()] left it; when the load settles
    the first call is resolved with the built instance or rejected with
    the error; every later call is resolved with the instance as the
    load left it; [fetch] has been called once. *)
Theorem getInstance_course (first : nat) (during : list nat)
    (o : fetch_outcome) (evs : list event) :
  run_events (Call first :: (Call <$> during) ++ Settle o :: evs) start
  = {| instance := Some (fst (result (initialize new_Dictionary o)));
       awaiting := None;
       fetches := 1;
       settled :=
         ((λ c, (c, Resolved new_Dictionary)) <$> during)
         ++ (first, match load_failure o with
                    | Some e => Rejected e
                    | None => Resolved (fst (result (initialize new_Dictionary o)))
                    end)
         :: omap (late_call (fst (result (initialize new_Dictionary o)))) evs;
       console_out := console (initialize new_Dictionary o) |}.
Proof.
  change (run_events (Call first :: (Call <$> during) ++ Settle o :: evs) start)
    with (run_events ((Call <$> during) ++ Settle o :: evs)
            {| instance := Some new_Dictionary; awaiting := Some first;
               fetches := 1; settled := []; console_out := [] |}).
  rewrite run_events_app, run_events_calls.
  change (run_events (Settle o :: evs) ?p)
    with (run_events evs (getInstance_resume o p)).
  unfold getInstance_resume. cbn [awaiting instance fetches settled console_out].
  rewrite run_events_settled. rewrite <- app_assoc.
  by destruct o.
Qed.
